(** * Pebble's in-memory store (db/memorystore.go)

    A shallow embedding of [db.MemoryStore] and of its methods, and the
    properties of the store that its specification states.

    Go hands entities to the store by pointer, so the model separates the
    memory that holds the entities ([Heap]) from the five maps of the store,
    which hold pointers into it.  Every method runs under the store's lock;
    the model is sequential, one method call being one step.  The mutex of
    the store is therefore free at every call and is not represented; the
    mutexes of the entities are, by the read locks that are held on them
    from one call to the next. *)

From Stdlib Require Import ZArith Strings.Byte.
From stdpp Require Import gmultiset.
From stdpp Require Import base option strings list gmap fin_maps.

Local Open Scope Z_scope.

(** ** Pointers, slices and errors *)

Definition addr := positive.
Bind Scope positive_scope with addr.

(** A Go pointer: [nil], or the address of an object. *)
Inductive ptr : Type :=
| Nil
| Ref (a : addr).

#[global] Instance ptr_eq_dec : EqDecision ptr.
Proof. solve_decision. Defined.

#[global] Instance byte_eq_dec : EqDecision byte.
Proof.
  intros x y. destruct (decide (Byte.to_N x = Byte.to_N y)) as [E|E].
  - left. apply (f_equal Byte.of_N) in E.
    rewrite !Byte.of_to_N in E. congruence.
  - right. congruence.
Defined.

(** A Go [[]byte]: the nil slice, or a slice with its elements.  An empty
    slice that is not nil is [Slice []]. *)
Inductive ByteSlice : Type :=
| NilSlice
| Slice (elems : list byte).

(** The bytes a slice holds; the nil slice holds none. *)
Definition bytes_of (s : ByteSlice) : list byte :=
  match s with
  | NilSlice => []
  | Slice bs => bs
  end.

(** [reflect.DeepEqual] on two [[]byte] values: both nil, or both non-nil
    with the same length and the same elements.  A nil slice and an empty
    slice that is not nil are not deeply equal. *)
Definition DeepEqual (x y : ByteSlice) : bool :=
  match x, y with
  | NilSlice, NilSlice => true
  | Slice a, Slice b => bool_decide (a = b)
  | _, _ => false
  end.

(** An error value built by [fmt.Errorf]: the format and its arguments. *)
Inductive error : Type :=
| Errorf (format : string) (args : list string).

#[global] Instance error_eq_dec : EqDecision error.
Proof. solve_decision. Defined.

(** What ends a call that does not return: the runtime error of a nil
    dereference, the value given to [panic], or the fatal error of the
    runtime for a mutex that is unlocked when it is not locked. *)
Inductive PanicValue : Type :=
| NilDereference
| PanicError (e : error)
| UnlockOfUnlocked.

(** ** The entities of package core *)

Module core.

Definition Time := Z.

(** Modelled from the spec: clock.Clock (package jmhodges/clock is not
    part of the sources); a clock gives the current time, and a fake clock
    is advanced with [Add]. *)
Record Clock : Type := mkClock { Now : Time }.

Definition Add (d : Z) (c : Clock) : Clock := mkClock (Now c + d).

(** Modelled from the spec: core.Account (package core is not part of the
    sources); an ID and a public key, which may be nil. *)
Record Account : Type := mkAccount {
  Account_ID : string;
  Account_Key : ptr;
  Account_Contact : list string
}.

(** Modelled from the spec: core.Order; an ID, the derived status, the
    authorizations the order refers to and its expiry. *)
Record Order : Type := mkOrder {
  Order_ID : string;
  Order_Status : string;
  Order_AuthorizationObjects : list ptr;
  Order_ExpiresDate : Time
}.

(** Modelled from the spec: core.Authorization; an ID, a status and the
    challenges it refers to. *)
Record Authorization : Type := mkAuthorization {
  Authorization_ID : string;
  Authorization_Status : string;
  Authorization_Challenges : list ptr
}.

(** Modelled from the spec: core.Challenge; an ID and a status. *)
Record Challenge : Type := mkChallenge {
  Challenge_ID : string;
  Challenge_Status : string
}.

(** Modelled from the spec: core.Certificate; an ID and the DER bytes. *)
Record Certificate : Type := mkCertificate {
  Certificate_ID : string;
  Certificate_DER : ByteSlice
}.

Definition with_Status (s : string) (o : Order) : Order :=
  mkOrder (Order_ID o) s (Order_AuthorizationObjects o) (Order_ExpiresDate o).

(** [o.ID = i], a write of the caller, who owns the order. *)
Definition with_ID (i : string) (o : Order) : Order :=
  mkOrder i (Order_Status o) (Order_AuthorizationObjects o)
          (Order_ExpiresDate o).

End core.
Import core.

(** ** Memory and store *)

(** The entities that embed a [sync.RWMutex]. *)
Inductive Mutex : Type :=
| OrderMutex
| AuthorizationMutex
| ChallengeMutex.

(** The read locks that are held on the mutexes of the entities, by the
    address of the entity and as often as they are held.  A write lock is
    taken by [GetOrderByID] only, which releases it before it returns, and
    no other goroutine runs in this model: between two calls no write lock
    is held, and only the read locks are kept. *)
Record RLocks : Type := mkRLocks {
  Order_RLocks : gmultiset addr;
  Authorization_RLocks : gmultiset addr;
  Challenge_RLocks : gmultiset addr
}.

Definition no_RLocks : RLocks := mkRLocks ∅ ∅ ∅.

Definition held (x : Mutex) (r : RLocks) : gmultiset addr :=
  match x with
  | OrderMutex => Order_RLocks r
  | AuthorizationMutex => Authorization_RLocks r
  | ChallengeMutex => Challenge_RLocks r
  end.

Definition set_held (x : Mutex) (f : gmultiset addr -> gmultiset addr)
    (r : RLocks) : RLocks :=
  match x with
  | OrderMutex =>
      mkRLocks (f (Order_RLocks r)) (Authorization_RLocks r) (Challenge_RLocks r)
  | AuthorizationMutex =>
      mkRLocks (Order_RLocks r) (f (Authorization_RLocks r)) (Challenge_RLocks r)
  | ChallengeMutex =>
      mkRLocks (Order_RLocks r) (Authorization_RLocks r) (f (Challenge_RLocks r))
  end.

(** The objects the pointers refer to, one table per type, and the read
    locks held on them. *)
Record Heap : Type := mkHeap {
  accounts : gmap addr Account;
  orders : gmap addr Order;
  authorizations : gmap addr Authorization;
  challenges : gmap addr Challenge;
  certificates : gmap addr Certificate;
  rlocks : RLocks
}.

Record MemoryStore : Type := mkMemoryStore {
  clk : Clock;
  accountsByID : gmap string ptr;
  ordersByID : gmap string ptr;
  authorizationsByID : gmap string ptr;
  challengesByID : gmap string ptr;
  certificatesByID : gmap string ptr
}.

Record World : Type := mkWorld {
  heap : Heap;
  store : MemoryStore
}.

Definition set_orders (f : gmap addr Order -> gmap addr Order) (h : Heap) : Heap :=
  mkHeap (accounts h) (f (orders h)) (authorizations h) (challenges h)
         (certificates h) (rlocks h).

Definition set_rlocks (f : RLocks -> RLocks) (h : Heap) : Heap :=
  mkHeap (accounts h) (orders h) (authorizations h) (challenges h)
         (certificates h) (f (rlocks h)).

Definition set_clk (f : Clock -> Clock) (m : MemoryStore) : MemoryStore :=
  mkMemoryStore (f (clk m)) (accountsByID m) (ordersByID m)
                (authorizationsByID m) (challengesByID m) (certificatesByID m).

Definition set_accountsByID (f : gmap string ptr -> gmap string ptr)
    (m : MemoryStore) : MemoryStore :=
  mkMemoryStore (clk m) (f (accountsByID m)) (ordersByID m)
                (authorizationsByID m) (challengesByID m) (certificatesByID m).

Definition set_ordersByID (f : gmap string ptr -> gmap string ptr)
    (m : MemoryStore) : MemoryStore :=
  mkMemoryStore (clk m) (accountsByID m) (f (ordersByID m))
                (authorizationsByID m) (challengesByID m) (certificatesByID m).

Definition set_authorizationsByID (f : gmap string ptr -> gmap string ptr)
    (m : MemoryStore) : MemoryStore :=
  mkMemoryStore (clk m) (accountsByID m) (ordersByID m)
                (f (authorizationsByID m)) (challengesByID m)
                (certificatesByID m).

Definition set_challengesByID (f : gmap string ptr -> gmap string ptr)
    (m : MemoryStore) : MemoryStore :=
  mkMemoryStore (clk m) (accountsByID m) (ordersByID m)
                (authorizationsByID m) (f (challengesByID m))
                (certificatesByID m).

Definition set_certificatesByID (f : gmap string ptr -> gmap string ptr)
    (m : MemoryStore) : MemoryStore :=
  mkMemoryStore (clk m) (accountsByID m) (ordersByID m)
                (authorizationsByID m) (challengesByID m)
                (f (certificatesByID m)).

Definition with_heap (f : Heap -> Heap) (w : World) : World :=
  mkWorld (f (heap w)) (store w).

Definition with_store (f : MemoryStore -> MemoryStore) (w : World) : World :=
  mkWorld (heap w) (f (store w)).

(** [m[k]] on a Go map of pointers: the zero value [nil] for a missing key. *)
Definition index (m : gmap string ptr) (k : string) : ptr :=
  default Nil (m !! k).

(** [len(s) == 0] on a string. *)
Definition len_is_zero (s : string) : bool := (String.length s =? 0)%nat.

(** ** A monad for methods: state, and panics *)

(** A call returns, panics, or waits for a lock that nothing will release. *)
Inductive Outcome (A : Type) : Type :=
| Returned (a : A) (w : World)
| Panicked (v : PanicValue)
| Blocked.
Arguments Returned {A} a w.
Arguments Panicked {A} v.
Arguments Blocked {A}.

Definition M (A : Type) : Type := World -> Outcome A.

#[global] Instance M_ret : MRet M := fun A (a : A) w => Returned a w.

#[global] Instance M_bind : MBind M := fun A B (f : A -> M B) (c : M A) w =>
  match c w with
  | Returned a w' => f a w'
  | Panicked v => Panicked v
  | Blocked => Blocked
  end.

Definition panic {A : Type} (v : PanicValue) : M A := fun _ => Panicked v.

Definition gets {A : Type} (f : World -> A) : M A := fun w => Returned (f w) w.

Definition modify (f : World -> World) : M unit := fun w => Returned tt (f w).

(** Reading through a pointer; a nil pointer panics. *)
Definition load {T : Type} (table : Heap -> gmap addr T) (p : ptr) : M T :=
  fun w =>
    match p with
    | Nil => Panicked NilDereference
    | Ref a =>
        match table (heap w) !! a with
        | Some x => Returned x w
        | None => Panicked NilDereference
        end
    end.

(** [e.RLock()]: one more read lock on the mutex of the entity.  No write
    lock is held between calls, so the read lock is granted at once. *)
Definition RLock (x : Mutex) (p : ptr) : M unit :=
  fun w =>
    match p with
    | Nil => Panicked NilDereference
    | Ref a =>
        Returned tt
          (with_heap (set_rlocks (set_held x (fun m => m ⊎ {[+ a +]}))) w)
    end.

(** [e.RUnlock()]: one read lock less; a fatal error when none is held.
    In the store it always follows the [RLock] of the same call. *)
Definition RUnlock (x : Mutex) (p : ptr) : M unit :=
  fun w =>
    match p with
    | Nil => Panicked NilDereference
    | Ref a =>
        if decide (a ∈ held x (rlocks (heap w))) then
          Returned tt
            (with_heap (set_rlocks (set_held x (fun m => m ∖ {[+ a +]}))) w)
        else Panicked UnlockOfUnlocked
    end.

(** [e.Lock()]: the write lock is granted when no read lock is held on the
    mutex; while one is held the caller waits, and in a world where a read
    lock was left behind by a call that has returned it waits for ever. *)
Definition Lock (x : Mutex) (p : ptr) : M unit :=
  fun w =>
    match p with
    | Nil => Panicked NilDereference
    | Ref a =>
        if decide (a ∈ held x (rlocks (heap w))) then Blocked
        else Returned tt w
    end.

(** [e.Unlock()], deferred to the return of the call that took the write
    lock. *)
Definition Unlock (x : Mutex) (p : ptr) : M unit :=
  fun w =>
    match p with
    | Nil => Panicked NilDereference
    | Ref a => Returned tt w
    end.

(** ** The methods of MemoryStore *)

Definition NewMemoryStore (c : Clock) : MemoryStore :=
  mkMemoryStore c ∅ ∅ ∅ ∅ ∅.

Section MemoryStore.

(** [GetStatus] of core.Order: the status of the order at an address, from
    the memory and the clock.  It only reads, and the read locks it takes
    it releases.  Package core is not part of the sources, so the function
    is a parameter of the development. *)
Variable GetStatus : Heap -> addr -> Clock -> string * option error.

(** [order.GetStatus(c)]: a method call on an order; the receiver must not
    be nil. *)
Definition Order_GetStatus (order : ptr) (c : Clock)
    : M (string * option error) :=
  fun w =>
    match order with
    | Nil => Panicked NilDereference
    | Ref a =>
        match orders (heap w) !! a with
        | Some _ => Returned (GetStatus (heap w) a c) w
        | None => Panicked NilDereference
        end
    end.

(** [order.Status = s]: a write through the pointer; the object is shared
    with every holder of the pointer. *)
Definition Order_set_Status (order : ptr) (s : string) : M unit :=
  fun w =>
    match order with
    | Nil => Panicked NilDereference
    | Ref a =>
        match orders (heap w) !! a with
        | Some _ =>
            Returned tt (with_heap (set_orders (alter (with_Status s) a)) w)
        | None => Panicked NilDereference
        end
    end.

(** memorystore.go:44 *)
Definition GetAccountByID (id : string) : M ptr :=
  gets (fun w => index (accountsByID (store w)) id).

(** memorystore.go:50.  The test is on the value the map gives, which is nil
    for a missing key and for a key that holds nil. *)
Definition UpdateAccountByID (id : string) (acct : ptr) : M (option error) :=
  m ← gets store;
  if decide (index (accountsByID m) id = Nil) then
    mret (Some (Errorf "account with ID %q does not exist" [id]))
  else
    _ ← modify (with_store (set_accountsByID <[id := acct]>));
    mret None.

(** memorystore.go:60.  The second component of the result is the error,
    [None] for Go's nil error. *)
Definition AddAccount (acct : ptr) : M (Z * option error) :=
  a ← load accounts acct;
  let acctID := Account_ID a in
  if len_is_zero acctID then
    mret (0, Some (Errorf "account must have a non-empty ID to add to MemoryStore" []))
  else if decide (Account_Key a = Nil) then
    mret (0, Some (Errorf "account must not have a nil Key" []))
  else
    m ← gets store;
    if decide (is_Some (accountsByID m !! acctID)) then
      mret (0, Some (Errorf "account %q already exists" [acctID]))
    else
      _ ← modify (with_store (set_accountsByID <[acctID := acct]>));
      m ← gets store;
      mret (Z.of_nat (size (accountsByID m)), None).

(** memorystore.go:81.  The ID is read under the read lock of the order;
    the return for an empty ID comes before [order.RUnlock()]. *)
Definition AddOrder (order : ptr) : M (Z * option error) :=
  _ ← RLock OrderMutex order;
  o ← load orders order;
  let orderID := Order_ID o in
  if len_is_zero orderID then
    mret (0, Some (Errorf "order must have a non-empty ID to add to MemoryStore" []))
  else
    _ ← RUnlock OrderMutex order;
    m ← gets store;
    if decide (is_Some (ordersByID m !! orderID)) then
      mret (0, Some (Errorf "order %q already exists" [orderID]))
    else
      _ ← modify (with_store (set_ordersByID <[orderID := order]>));
      m ← gets store;
      mret (Z.of_nat (size (ordersByID m)), None).

(** memorystore.go:100.  A read that writes: the status is computed and
    stored in the order, under the write lock of the order, before the
    order is returned; an error of the computation is a panic. *)
Definition GetOrderByID (id : string) : M ptr :=
  m ← gets store;
  match ordersByID m !! id with
  | Some order =>
      '(orderStatus, err) ← Order_GetStatus order (clk m);
      match err with
      | Some e => panic (PanicError e)
      | None =>
          _ ← Lock OrderMutex order;
          _ ← Order_set_Status order orderStatus;
          _ ← Unlock OrderMutex order;
          mret order
      end
  | None => mret Nil
  end.

(** memorystore.go:117.  As in [AddOrder], the return for an empty ID
    comes before [authz.RUnlock()]. *)
Definition AddAuthorization (authz : ptr) : M (Z * option error) :=
  _ ← RLock AuthorizationMutex authz;
  a ← load authorizations authz;
  let authzID := Authorization_ID a in
  if len_is_zero authzID then
    mret (0, Some (Errorf "authz must have a non-empty ID to add to MemoryStore" []))
  else
    _ ← RUnlock AuthorizationMutex authz;
    m ← gets store;
    if decide (is_Some (authorizationsByID m !! authzID)) then
      mret (0, Some (Errorf "authz %q already exists" [authzID]))
    else
      _ ← modify (with_store (set_authorizationsByID <[authzID := authz]>));
      m ← gets store;
      mret (Z.of_nat (size (authorizationsByID m)), None).

(** memorystore.go:136 *)
Definition GetAuthorizationByID (id : string) : M ptr :=
  gets (fun w => index (authorizationsByID (store w)) id).

(** memorystore.go:142.  Here the read lock is released before the ID is
    tested. *)
Definition AddChallenge (chal : ptr) : M (Z * option error) :=
  _ ← RLock ChallengeMutex chal;
  c ← load challenges chal;
  let chalID := Challenge_ID c in
  _ ← RUnlock ChallengeMutex chal;
  if len_is_zero chalID then
    mret (0, Some (Errorf "challenge must have a non-empty ID to add to MemoryStore" []))
  else
    m ← gets store;
    if decide (is_Some (challengesByID m !! chalID)) then
      mret (0, Some (Errorf "challenge %q already exists" [chalID]))
    else
      _ ← modify (with_store (set_challengesByID <[chalID := chal]>));
      m ← gets store;
      mret (Z.of_nat (size (challengesByID m)), None).

(** memorystore.go:161 *)
Definition GetChallengeByID (id : string) : M ptr :=
  gets (fun w => index (challengesByID (store w)) id).

(** memorystore.go:167 *)
Definition AddCertificate (cert : ptr) : M (Z * option error) :=
  c ← load certificates cert;
  let certID := Certificate_ID c in
  if len_is_zero certID then
    mret (0, Some (Errorf "cert must have a non-empty ID to add to MemoryStore" []))
  else
    m ← gets store;
    if decide (is_Some (certificatesByID m !! certID)) then
      mret (0, Some (Errorf "cert %q already exists" [certID]))
    else
      _ ← modify (with_store (set_certificatesByID <[certID := cert]>));
      m ← gets store;
      mret (Z.of_nat (size (certificatesByID m)), None).

(** memorystore.go:184 *)
Definition GetCertificateByID (id : string) : M ptr :=
  gets (fun w => index (certificatesByID (store w)) id).

(** The loop of [GetCertificateByDER] over the entries still to visit. *)
Fixpoint scan_DER (der : ByteSlice) (entries : list (string * ptr)) : M ptr :=
  match entries with
  | [] => mret Nil
  | (_, c) :: rest =>
      cert ← load certificates c;
      if DeepEqual (Certificate_DER cert) der then mret c
      else scan_DER der rest
  end.

(** memorystore.go:192.  [range] visits the entries of a map in an order
    that Go leaves unspecified and that may differ from call to call:
    [visit] is the order of this call.  The properties below are stated for
    every [visit] that is an arrangement of the entries of
    [m.certificatesByID]. *)
Definition GetCertificateByDER (visit : list (string * ptr))
    (der : ByteSlice) : M ptr :=
  scan_DER der visit.

(** memorystore.go:204 *)
Definition RevokeCertificate (cert : ptr) : M unit :=
  c ← load certificates cert;
  modify (with_store (set_certificatesByID (delete (Certificate_ID c)))).

End MemoryStore.

(** ** The five kinds of entity, uniformly *)

Inductive Kind : Type :=
| KAccount
| KOrder
| KAuthorization
| KChallenge
| KCertificate.

#[global] Instance Kind_eq_dec : EqDecision Kind.
Proof. solve_decision. Defined.

(** The collection of a kind. *)
Definition byID (k : Kind) (m : MemoryStore) : gmap string ptr :=
  match k with
  | KAccount => accountsByID m
  | KOrder => ordersByID m
  | KAuthorization => authorizationsByID m
  | KChallenge => challengesByID m
  | KCertificate => certificatesByID m
  end.

Definition set_byID (k : Kind) (f : gmap string ptr -> gmap string ptr)
    : MemoryStore -> MemoryStore :=
  match k with
  | KAccount => set_accountsByID f
  | KOrder => set_ordersByID f
  | KAuthorization => set_authorizationsByID f
  | KChallenge => set_challengesByID f
  | KCertificate => set_certificatesByID f
  end.

(** The ID of the entity of kind [k] at an address, if there is one. *)
Definition ID_at (k : Kind) (h : Heap) (a : addr) : option string :=
  match k with
  | KAccount => Account_ID <$> accounts h !! a
  | KOrder => Order_ID <$> orders h !! a
  | KAuthorization => Authorization_ID <$> authorizations h !! a
  | KChallenge => Challenge_ID <$> challenges h !! a
  | KCertificate => Certificate_ID <$> certificates h !! a
  end.

(** Whether the entity at an address is an account whose key is nil. *)
Definition key_is_nil (k : Kind) (h : Heap) (a : addr) : bool :=
  match k with
  | KAccount =>
      match accounts h !! a with
      | Some acct => bool_decide (Account_Key acct = Nil)
      | None => false
      end
  | _ => false
  end.

(** The word each method uses for its entity in its messages. *)
Definition noun (k : Kind) : string :=
  match k with
  | KAccount => "account"
  | KOrder => "order"
  | KAuthorization => "authz"
  | KChallenge => "challenge"
  | KCertificate => "cert"
  end.

(** The four errors of the store, by the names the specification gives
    them. *)
Definition EmptyIdentifier (k : Kind) : error :=
  Errorf (noun k +:+ " must have a non-empty ID to add to MemoryStore") [].

Definition MissingRequiredField : error :=
  Errorf "account must not have a nil Key" [].

Definition AlreadyExists (k : Kind) (id : string) : error :=
  Errorf (noun k +:+ " %q already exists") [id].

Definition NotFound (id : string) : error :=
  Errorf "account with ID %q does not exist" [id].

Definition AddX (k : Kind) : ptr -> M (Z * option error) :=
  match k with
  | KAccount => AddAccount
  | KOrder => AddOrder
  | KAuthorization => AddAuthorization
  | KChallenge => AddChallenge
  | KCertificate => AddCertificate
  end.

Definition GetXByID (GetStatus : Heap -> addr -> Clock -> string * option error)
    (k : Kind) : string -> M ptr :=
  match k with
  | KAccount => GetAccountByID
  | KOrder => GetOrderByID GetStatus
  | KAuthorization => GetAuthorizationByID
  | KChallenge => GetChallengeByID
  | KCertificate => GetCertificateByID
  end.

(** The read lock that [AddOrder] and [AddAuthorization] still hold when
    they return for an empty ID. *)
Definition kept_RLock (k : Kind) (a : addr) (w : World) : World :=
  match k with
  | KOrder =>
      with_heap (set_rlocks (set_held OrderMutex (fun m => m ⊎ {[+ a +]}))) w
  | KAuthorization =>
      with_heap
        (set_rlocks (set_held AuthorizationMutex (fun m => m ⊎ {[+ a +]}))) w
  | _ => w
  end.

(** What every [AddX] does, said once for all kinds. *)
Definition add_steps (k : Kind) (p : ptr) : M (Z * option error) := fun w =>
  match p with
  | Nil => Panicked NilDereference
  | Ref a =>
      match ID_at k (heap w) a with
      | None => Panicked NilDereference
      | Some i =>
          if decide (i = "") then
            Returned (0, Some (EmptyIdentifier k)) (kept_RLock k a w)
          else if key_is_nil k (heap w) a then
            Returned (0, Some MissingRequiredField) w
          else if decide (is_Some (byID k (store w) !! i)) then
            Returned (0, Some (AlreadyExists k i)) w
          else
            Returned (Z.of_nat (size (<[i := p]> (byID k (store w)))), None)
                     (with_store (set_byID k <[i := p]>) w)
      end
  end.

(** ** Well-formed worlds *)

(** A pointer that refers to an object of the table. *)
Definition allocated {T : Type} (table : gmap addr T) (p : ptr) : Prop :=
  match p with
  | Nil => False
  | Ref a => is_Some (table !! a)
  end.

(** The pointers of the collections refer to objects of their type.  Only
    [accountsByID] can hold nil: [UpdateAccountByID] stores what it is
    given. *)
Record wf (w : World) : Prop := mk_wf {
  wf_accounts :
    map_Forall (fun _ p => p = Nil ∨ allocated (accounts (heap w)) p)
               (accountsByID (store w));
  wf_orders :
    map_Forall (fun _ p => allocated (orders (heap w)) p)
               (ordersByID (store w));
  wf_authorizations :
    map_Forall (fun _ p => allocated (authorizations (heap w)) p)
               (authorizationsByID (store w));
  wf_challenges :
    map_Forall (fun _ p => allocated (challenges (heap w)) p)
               (challengesByID (store w));
  wf_certificates :
    map_Forall (fun _ p => allocated (certificates (heap w)) p)
               (certificatesByID (store w))
}.

(** The callers own the entities: between two calls they may create
    objects and write to the fields of those they hold.  Objects are never
    freed. *)
Definition heap_grows (h h' : Heap) : Prop :=
  (∀ p, allocated (accounts h) p -> allocated (accounts h') p) ∧
  (∀ p, allocated (orders h) p -> allocated (orders h') p) ∧
  (∀ p, allocated (authorizations h) p -> allocated (authorizations h') p) ∧
  (∀ p, allocated (challenges h) p -> allocated (challenges h') p) ∧
  (∀ p, allocated (certificates h) p -> allocated (certificates h') p).

(** The worlds a program can be in: the store is created by
    [NewMemoryStore] and changes by calls of its methods that return; the
    pointers given to the methods are nil or refer to objects. *)
Inductive reachable (GetStatus : Heap -> addr -> Clock -> string * option error)
    : World -> Prop :=
| reach_new h c :
    reachable GetStatus (mkWorld h (NewMemoryStore c))
| reach_caller w h' :
    reachable GetStatus w -> heap_grows (heap w) h' ->
    reachable GetStatus (with_heap (fun _ => h') w)
| reach_clock w d :
    reachable GetStatus w -> reachable GetStatus (with_store (set_clk (Add d)) w)
| reach_AddX w k p r w' :
    reachable GetStatus w -> AddX k p w = Returned r w' ->
    reachable GetStatus w'
| reach_UpdateAccountByID w id acct r w' :
    reachable GetStatus w ->
    acct = Nil ∨ allocated (accounts (heap w)) acct ->
    UpdateAccountByID id acct w = Returned r w' ->
    reachable GetStatus w'
| reach_GetOrderByID w id r w' :
    reachable GetStatus w -> GetOrderByID GetStatus id w = Returned r w' ->
    reachable GetStatus w'
| reach_RevokeCertificate w cert w' :
    reachable GetStatus w -> RevokeCertificate cert w = Returned tt w' ->
    reachable GetStatus w'.

(** The fake clock is advanced between two calls. *)
Definition advance (d : Z) (w : World) : World :=
  with_store (set_clk (Add d)) w.

(** Two memories with the same entities, field by field; the read locks
    held on them may differ. *)
Definition same_entities (h h' : Heap) : Prop :=
  accounts h' = accounts h ∧ orders h' = orders h ∧
  authorizations h' = authorizations h ∧ challenges h' = challenges h ∧
  certificates h' = certificates h.

(** Two orders that differ at most in their status. *)
Definition same_but_Status (o o' : Order) : Prop :=
  Order_ID o' = Order_ID o ∧
  Order_AuthorizationObjects o' = Order_AuthorizationObjects o ∧
  Order_ExpiresDate o' = Order_ExpiresDate o.

(** A certificate the store holds: some ID leads to it. *)
Definition stored_certificate (w : World) (a : addr) (c : Certificate) : Prop :=
  ∃ id, certificatesByID (store w) !! id = Some (Ref a) ∧
        certificates (heap w) !! a = Some c.

(** The world after the status [s] is written into the order [o] at [a]. *)
Definition persisted (a : addr) (o : Order) (s : string) (w : World) : World :=
  with_heap (set_orders <[a := with_Status s o]>) w.

(** ** The properties as the specification words them *)

(** The certificate at [a] is stored and its DER matches [der] the way
    [reflect.DeepEqual] compares: the same bytes, and nil only together. *)
Definition matches (w : World) (der : ByteSlice) (a : addr) (c : Certificate) : Prop :=
  stored_certificate w a c ∧
  bytes_of (Certificate_DER c) = bytes_of der ∧
  (Certificate_DER c = NilSlice <-> der = NilSlice).

(** The property of the specification, as it words it: the bytes alone
    decide. *)
Definition lookup_by_bytes_as_stated (w : World) (visit : list (string * ptr))
    (der : ByteSlice) : Prop :=
  wf w -> visit ≡ₚ map_to_list (certificatesByID (store w)) ->
  ((∃ a c, stored_certificate w a c ∧
           bytes_of (Certificate_DER c) = bytes_of der) ->
   ∃ a c, GetCertificateByDER visit der w = Returned (Ref a) w ∧
          stored_certificate w a c ∧
          bytes_of (Certificate_DER c) = bytes_of der) ∧
  ((∀ a c, stored_certificate w a c ->
           bytes_of (Certificate_DER c) ≠ bytes_of der) ->
   GetCertificateByDER visit der w = Returned Nil w).

(** The property of the specification, as it words it: an entity that
    passes the checks is added, and the read that follows returns it. *)
Definition add_then_get_as_stated
    (GetStatus : Heap -> addr -> Clock -> string * option error)
    (k : Kind) (w : World) (a : addr) : Prop :=
  ∀ i, ID_at k (heap w) a = Some i -> i ≠ "" ->
       key_is_nil k (heap w) a = false ->
       byID k (store w) !! i = None ->
       ∃ n w1 w2, AddX k (Ref a) w = Returned (n, None) w1 ∧
                  GetXByID GetStatus k i w1 = Returned (Ref a) w2.

(** The property of the specification, as it words it: once an entity with
    ID [i] is added, adding any entity with that ID fails with the error
    for an ID that exists, and the first entity stays. *)
Definition add_twice_as_stated (k : Kind) (w : World) (a1 a2 : addr) : Prop :=
  ∀ i n w1, ID_at k (heap w) a1 = Some i -> ID_at k (heap w) a2 = Some i ->
            AddX k (Ref a1) w = Returned (n, None) w1 ->
            AddX k (Ref a2) w1 = Returned (0, Some (AlreadyExists k i)) w1 ∧
            byID k (store w1) !! i = Some (Ref a1).

(** ** A small world for examples *)

Module Sample.

Definition hour : Z := 3600000000000.

Definition O : Order := mkOrder "O" "" [] hour.

Definition heap0 : Heap :=
  mkHeap
    {[ 1%positive := mkAccount "acct1" (Ref 9) [];
       2%positive := mkAccount "acct1" Nil ["mailto:a@example.org"];
       3%positive := mkAccount "" (Ref 9) [];
       4%positive := mkAccount "acct4" Nil [] ]}
    {[ 1%positive := O;
       2%positive := mkOrder "" "pending" [] hour;
       3%positive := mkOrder "O" "valid" [Ref 1] 0 ]}
    {[ 1%positive := mkAuthorization "az1" "pending" [Ref 1];
       2%positive := mkAuthorization "" "pending" [] ]}
    {[ 1%positive := mkChallenge "ch1" "pending";
       2%positive := mkChallenge "" "pending" ]}
    {[ 1%positive := mkCertificate "c1" (Slice []);
       2%positive := mkCertificate "c2" (Slice [x30; x82; x01]);
       3%positive := mkCertificate "" (Slice [x30]) ]}
    no_RLocks.

(** The store just created, with a fake clock at time 0. *)
Definition w0 : World := mkWorld heap0 (NewMemoryStore (mkClock 0)).

(** The store after [AddOrder] of the order at address 1. *)
Definition wO : World := with_store (set_ordersByID <["O" := Ref 1]>) w0.

(** The store after [AddAccount] of the account at address 1. *)
Definition wA : World := with_store (set_accountsByID <["acct1" := Ref 1]>) w0.

(** The store after [AddCertificate] of the certificates at 1 and 2. *)
Definition wC : World :=
  with_store (set_certificatesByID (fun _ => {["c1" := Ref 1; "c2" := Ref 2]})) w0.

(** The order at address 2 has no ID yet: [AddOrder] refuses it, and
    returns with the read lock of the order held. *)
Definition wRefused : World := kept_RLock KOrder 2 w0.

(** The caller gives the order the ID "late" ... *)
Definition wNamed : World :=
  with_heap (set_orders <[2%positive := with_ID "late" (mkOrder "" "pending" [] hour)]>)
            wRefused.

(** ... and [AddOrder] stores it. *)
Definition wLate : World := with_store (set_ordersByID <["late" := Ref 2]>) wNamed.

(** A status computation that looks at the expiry only. *)
Definition expiry_status (h : Heap) (a : addr) (c : Clock)
    : string * option error :=
  match orders h !! a with
  | Some o =>
      if Order_ExpiresDate o <? Now c then ("expired", None)
      else ("pending", None)
  | None => ("", Some (Errorf "no such order" []))
  end.

(** A status computation that rejects every order. *)
Definition failing_status (h : Heap) (a : addr) (c : Clock)
    : string * option error :=
  ("", Some (Errorf "order is in an invalid state" [])).

End Sample.

(** ** Method calls, uniformly *)

(** A call of a method of the store, with its arguments. *)
Inductive Call : Type :=
| CallAddX (k : Kind) (p : ptr)
| CallGetXByID (k : Kind) (id : string)
| CallUpdateAccountByID (id : string) (acct : ptr)
| CallGetCertificateByDER (visit : list (string * ptr)) (der : ByteSlice)
| CallRevokeCertificate (cert : ptr).

(** The effect of a call on the world, its result dropped. *)
Definition call (GetStatus : Heap -> addr -> Clock -> string * option error)
    (c : Call) : M unit :=
  match c with
  | CallAddX k p => _ ← AddX k p; mret tt
  | CallGetXByID k id => _ ← GetXByID GetStatus k id; mret tt
  | CallUpdateAccountByID id acct => _ ← UpdateAccountByID id acct; mret tt
  | CallGetCertificateByDER visit der =>
      _ ← GetCertificateByDER visit der; mret tt
  | CallRevokeCertificate cert => RevokeCertificate cert
  end.

(** The arguments a Go program can give: a pointer to an entity is not nil
    where the method reads through it, and the visit of the certificates is
    an arrangement of the entries of the collection. *)
Definition valid_args (c : Call) (w : World) : Prop :=
  match c with
  | CallAddX k p => ∃ a, p = Ref a ∧ is_Some (ID_at k (heap w) a)
  | CallGetXByID _ _ => True
  | CallUpdateAccountByID _ acct =>
      acct = Nil ∨ allocated (accounts (heap w)) acct
  | CallGetCertificateByDER visit _ =>
      visit ≡ₚ map_to_list (certificatesByID (store w))
  | CallRevokeCertificate cert => allocated (certificates (heap w)) cert
  end.

(** A change of the world that [AddX] for the kind [k] neither sees nor
    disturbs. *)
Definition passes (k : Kind) (T : World -> World) : Prop :=
  (∀ w a, ID_at k (heap (T w)) a = ID_at k (heap w) a) ∧
  (∀ w a, key_is_nil k (heap (T w)) a = key_is_nil k (heap w) a) ∧
  (∀ w, byID k (store (T w)) = byID k (store w)) ∧
  (∀ w a, kept_RLock k a (T w) = T (kept_RLock k a w)) ∧
  (∀ w f, with_store (set_byID k f) (T w) = T (with_store (set_byID k f) w)).

(** No collection has an entry under the empty ID. *)
Definition no_empty_key (w : World) : Prop :=
  ∀ k, byID k (store w) !! "" = None.

(** * Properties *)

(** ** Basic facts *)

Ltac run := unfold mbind, M_bind, mret, M_ret, gets, modify, panic, load;
            simpl.

Lemma len_is_zero_spec (s : string) : len_is_zero s = bool_decide (s = "").
Proof. by destruct s. Qed.

Lemma alter_Some {T : Type} (f : T -> T) (m : gmap addr T) (a : addr) (x : T) :
  m !! a = Some x -> alter f a m = <[a := f x]> m.
Proof.
  intros Hx. apply map_eq. intros b. rewrite lookup_alter, lookup_insert.
  case_decide; subst; by rewrite ?Hx.
Qed.

Lemma index_Nil (m : gmap string ptr) (k : string) :
  index m k = Nil <-> m !! k = None ∨ m !! k = Some Nil.
Proof.
  unfold index. destruct (m !! k) as [[|a]|]; simpl;
    intuition congruence.
Qed.

Lemma index_Ref (m : gmap string ptr) (k : string) (a : addr) :
  index m k = Ref a <-> m !! k = Some (Ref a).
Proof.
  unfold index. destruct (m !! k) as [[|b]|]; simpl; intuition congruence.
Qed.

Lemma byID_set_byID (k : Kind) f (m : MemoryStore) :
  byID k (set_byID k f m) = f (byID k m).
Proof. by destruct k. Qed.

Lemma byID_set_byID_ne (k k' : Kind) f (m : MemoryStore) :
  k ≠ k' -> byID k' (set_byID k f m) = byID k' m.
Proof. by destruct k, k'. Qed.

Lemma DeepEqual_true (x y : ByteSlice) :
  DeepEqual x y = true <-> x = y.
Proof.
  destruct x, y; simpl; try (split; congruence).
  rewrite bool_decide_eq_true. split; congruence.
Qed.

Lemma DeepEqual_bytes (x y : ByteSlice) :
  DeepEqual x y = true <->
  bytes_of x = bytes_of y ∧ (x = NilSlice <-> y = NilSlice).
Proof.
  rewrite DeepEqual_true. split; [by intros -> |].
  destruct x, y; simpl; intros [Hb Hn]; try done.
  - by destruct Hn as [Hn _]; specialize (Hn eq_refl).
  - by destruct Hn as [_ Hn]; specialize (Hn eq_refl).
  - by subst.
Qed.

(** A read lock taken and released leaves the world as it was. *)
Lemma RLock_RUnlock (x : Mutex) (a : addr) (w : World) :
  with_heap (set_rlocks (set_held x (fun m => m ∖ {[+ a +]})))
    (with_heap (set_rlocks (set_held x (fun m => m ⊎ {[+ a +]}))) w) = w.
Proof.
  destruct w as [[ac od au ch ce [ro ra rc]] m].
  unfold with_heap, set_rlocks. cbn [heap store rlocks accounts orders
    authorizations challenges certificates].
  do 2 f_equal. destruct x; cbn; f_equal; multiset_solver.
Qed.

Lemma held_after_RLock (m : gmultiset addr) (a : addr) : a ∈ m ⊎ {[+ a +]}.
Proof.
  apply gmultiset_elem_of_disj_union. right.
  by apply gmultiset_elem_of_singleton.
Qed.

Ltac run_locks := unfold RLock, RUnlock, Lock, Unlock.

(** Each [AddX] of the source runs the steps of [add_steps]. *)
Lemma AddX_steps (k : Kind) (p : ptr) (w : World) :
  AddX k p w = add_steps k p w.
Proof.
  destruct p as [|a]; [by destruct k|].
  destruct k; unfold AddX, add_steps, ID_at, key_is_nil, kept_RLock;
    [unfold AddAccount|unfold AddOrder|unfold AddAuthorization
    |unfold AddChallenge|unfold AddCertificate];
    unfold mbind, M_bind, mret, M_ret, gets, modify, panic, load;
    run_locks; cbv beta iota;
    cbn [heap with_heap accounts orders authorizations challenges
         certificates set_rlocks];
    (match goal with |- context [?t (heap w) !! a] =>
       destruct (t (heap w) !! a) as [x|] end); cbn [fmap option_fmap option_map];
    try done;
    rewrite len_is_zero_spec; unfold bool_decide;
    cbn [rlocks held set_held Order_RLocks Authorization_RLocks
         Challenge_RLocks];
    repeat (case_decide; rewrite ?RLock_RUnlock in *; cbn [store with_store];
            try done;
            try (exfalso;
                 match goal with H : _ ∉ _ |- _ => apply H end;
                 apply held_after_RLock)).
Qed.

(** ** Reading an order *)

Section Orders.

Variable GetStatus : Heap -> addr -> Clock -> string * option error.

Lemma GetOrderByID_absent (w : World) (id : string) :
  ordersByID (store w) !! id = None ->
  GetOrderByID GetStatus id w = Returned Nil w.
Proof. intros Hid. unfold GetOrderByID. run. by rewrite Hid. Qed.

Lemma GetOrderByID_stored (w : World) (id : string) (a : addr) (o : Order) :
  ordersByID (store w) !! id = Some (Ref a) ->
  orders (heap w) !! a = Some o ->
  GetOrderByID GetStatus id w =
    match GetStatus (heap w) a (clk (store w)) with
    | (s, None) =>
        if decide (a ∈ Order_RLocks (rlocks (heap w))) then Blocked
        else Returned (Ref a) (persisted a o s w)
    | (_, Some e) => Panicked (PanicError e)
    end.
Proof.
  intros Hid Ha. unfold GetOrderByID, Order_GetStatus, Order_set_Status. run.
  run_locks. rewrite Hid, Ha. simpl.
  destruct (GetStatus (heap w) a (clk (store w))) as [s [e|]]; simpl; [done|].
  case_decide; [done|].
  rewrite Ha. unfold persisted, with_heap, set_orders.
  by rewrite (alter_Some _ _ _ o).
Qed.

Lemma persisted_lookup (a : addr) (o : Order) (s : string) (w : World) :
  orders (heap (persisted a o s w)) !! a = Some (with_Status s o).
Proof. unfold persisted. simpl. apply lookup_insert_eq. Qed.

Lemma persisted_twice (a : addr) (o : Order) (s s' : string) (w : World) :
  persisted a (with_Status s o) s' (persisted a o s w) = persisted a o s' w.
Proof.
  unfold persisted, with_heap, set_orders. simpl. by rewrite insert_insert_eq.
Qed.

End Orders.

(** ** The methods keep worlds well formed *)

Lemma allocated_insert {T : Type} (m : gmap addr T) (a : addr) (x : T) (p : ptr) :
  allocated m p -> allocated (<[a := x]> m) p.
Proof.
  destruct p as [|b]; simpl; [done|]. intros Hb.
  rewrite lookup_insert. by case_decide.
Qed.

Lemma ID_at_allocated (k : Kind) (h : Heap) (a : addr) (i : string) :
  ID_at k h a = Some i ->
  match k with
  | KAccount => allocated (accounts h) (Ref a)
  | KOrder => allocated (orders h) (Ref a)
  | KAuthorization => allocated (authorizations h) (Ref a)
  | KChallenge => allocated (challenges h) (Ref a)
  | KCertificate => allocated (certificates h) (Ref a)
  end.
Proof.
  destruct k; simpl; intros Hi; apply fmap_Some in Hi as (x & Hx & _); eauto.
Qed.

Lemma NewMemoryStore_wf (h : Heap) (c : Clock) : wf (mkWorld h (NewMemoryStore c)).
Proof. split; simpl; apply map_Forall_empty. Qed.

Lemma kept_RLock_wf (k : Kind) (a : addr) (w : World) :
  wf w -> wf (kept_RLock k a w).
Proof. intros []. by destruct k. Qed.

Lemma AddX_wf (k : Kind) (p : ptr) (w w' : World) (r : Z * option error) :
  wf w -> AddX k p w = Returned r w' -> wf w'.
Proof.
  intros Hwf. rewrite AddX_steps. unfold add_steps.
  destruct p as [|a]; [done|].
  destruct (ID_at k (heap w) a) as [i|] eqn:Hi; [|done].
  case_decide; [intros [= _ <-]; by apply kept_RLock_wf|].
  repeat (case_match; try (intros [= _ <-]; done)).
  intros [= _ <-]. apply ID_at_allocated in Hi. destruct Hwf.
  destruct k; split; simpl; try done; apply map_Forall_insert_2; auto.
Qed.

Lemma UpdateAccountByID_wf (id : string) (acct : ptr) (w w' : World)
    (r : option error) :
  wf w -> acct = Nil ∨ allocated (accounts (heap w)) acct ->
  UpdateAccountByID id acct w = Returned r w' -> wf w'.
Proof.
  intros Hwf Hacct. unfold UpdateAccountByID. run.
  case_decide; intros [= _ <-]; [done|].
  destruct Hwf. split; simpl; try done. by apply map_Forall_insert_2.
Qed.

Lemma persisted_wf (a : addr) (o : Order) (s : string) (w : World) :
  wf w -> wf (persisted a o s w).
Proof.
  intros []. split; simpl; try done.
  eapply map_Forall_impl; [eassumption|]. intros ? p. apply allocated_insert.
Qed.

Lemma GetOrderByID_wf GetStatus (id : string) (w w' : World) (r : ptr) :
  wf w -> GetOrderByID GetStatus id w = Returned r w' -> wf w'.
Proof.
  intros Hwf.
  destruct (ordersByID (store w) !! id) as [p|] eqn:Hid.
  - pose proof (wf_orders w Hwf id p Hid) as Hp.
    destruct p as [|a]; [done|]. destruct Hp as [o Ho].
    rewrite (GetOrderByID_stored _ _ _ _ o Hid Ho).
    destruct (GetStatus _ _ _) as [s [e|]]; [done|].
    case_decide; [done|].
    intros [= _ <-]. by apply persisted_wf.
  - rewrite (GetOrderByID_absent _ _ _ Hid). by intros [= _ <-].
Qed.

Lemma RevokeCertificate_wf (cert : ptr) (w w' : World) :
  wf w -> RevokeCertificate cert w = Returned tt w' -> wf w'.
Proof.
  intros Hwf. unfold RevokeCertificate. run.
  destruct cert as [|a]; [done|].
  destruct (certificates (heap w) !! a) as [c|]; [|done].
  intros [= <-]. destruct Hwf. split; simpl; try done.
  by apply map_Forall_delete.
Qed.

Lemma advance_wf (d : Z) (w : World) : wf w -> wf (advance d w).
Proof. by intros []. Qed.

Lemma heap_grows_wf (w : World) (h' : Heap) :
  wf w -> heap_grows (heap w) h' -> wf (with_heap (fun _ => h') w).
Proof.
  intros [] (Hacct & Hord & Hauthz & Hchal & Hcert).
  split; simpl; (eapply map_Forall_impl; [eassumption|]); simpl; intros ? p;
    auto. intros [->|Hp]; auto.
Qed.

(** Every world a program can be in is well formed. *)
Lemma reachable_wf GetStatus (w : World) : reachable GetStatus w -> wf w.
Proof.
  induction 1 as [h c|w h' _ IH Hgrow|w d _ IH|w k p r w' _ IH Hadd
                 |w id acct r w' _ IH Hacct Hupd|w id r w' _ IH Hget
                 |w cert w' _ IH Hrev].
  - apply NewMemoryStore_wf.
  - by apply heap_grows_wf.
  - by apply (advance_wf d).
  - by eapply AddX_wf.
  - by eapply UpdateAccountByID_wf.
  - by eapply GetOrderByID_wf.
  - by eapply RevokeCertificate_wf.
Qed.

Example AddOrder_sample :
  AddOrder (Ref 1) Sample.w0 = Returned (1, None) Sample.wO.
Proof. reflexivity. Qed.

Example AddAccount_sample :
  AddAccount (Ref 1) Sample.w0 = Returned (1, None) Sample.wA.
Proof. reflexivity. Qed.

Example AddCertificate_sample :
  (_ ← AddCertificate (Ref 1); AddCertificate (Ref 2)) Sample.w0
  = Returned (2, None) Sample.wC.
Proof. reflexivity. Qed.

Example GetOrderByID_sample :
  GetOrderByID Sample.expiry_status "O" Sample.wO =
  Returned (Ref 1) (persisted 1%positive Sample.O "pending" Sample.wO).
Proof. vm_compute. reflexivity. Qed.

(** ** Claims about [GetOrderByID] *)

Example AddOrder_refused_sample :
  AddOrder (Ref 2) Sample.w0
  = Returned (0, Some (EmptyIdentifier KOrder)) Sample.wRefused.
Proof. reflexivity. Qed.

Example AddOrder_late_sample :
  AddOrder (Ref 2) Sample.wNamed = Returned (1, None) Sample.wLate.
Proof. reflexivity. Qed.

Example GetOrderByID_late_sample :
  GetOrderByID Sample.expiry_status "late" Sample.wLate = Blocked.
Proof. reflexivity. Qed.

(** X17.  For an order stored under [id] on which no read lock is held,
    [GetOrderByID id] computes the status with the injected function from
    the order's state and the reading of the clock at the call, writes it
    into the stored order and returns the order; nothing else in the world
    changes, and in the order only the status does.  After the clock is
    advanced a second call persists and returns the status computed at the
    later time, again with every other field of the order as it was: the
    status changes with no update call in between. *)
Theorem GetOrderByID_recomputes_status
    (GetStatus : Heap -> addr -> Clock -> string * option error)
    (w : World) (id : string) (a : addr) (o : Order) (s : string) :
  ordersByID (store w) !! id = Some (Ref a) ->
  orders (heap w) !! a = Some o ->
  a ∉ Order_RLocks (rlocks (heap w)) ->
  GetStatus (heap w) a (clk (store w)) = (s, None) ->
  ∃ o' w',
    GetOrderByID GetStatus id w = Returned (Ref a) w' ∧
    w' = with_heap (set_orders <[a := o']>) w ∧
    orders (heap w') !! a = Some o' ∧
    Order_Status o' = s ∧ same_but_Status o o' ∧
    ∀ d s2,
      GetStatus (heap w') a (Add d (clk (store w))) = (s2, None) ->
      ∃ o'' w'',
        GetOrderByID GetStatus id (advance d w') = Returned (Ref a) w'' ∧
        w'' = advance d (with_heap (set_orders <[a := o'']>) w) ∧
        orders (heap w'') !! a = Some o'' ∧
        Order_Status o'' = s2 ∧ same_but_Status o o''.
Proof.
  intros Hid Ha Hfree Hs.
  exists (with_Status s o), (persisted a o s w).
  rewrite (GetOrderByID_stored _ _ _ _ o Hid Ha), Hs.
  rewrite decide_False by done.
  rewrite persisted_lookup. repeat split.
  intros d s2 Hs2.
  exists (with_Status s2 o), (advance d (persisted a o s2 w)).
  rewrite (GetOrderByID_stored _ (advance d (persisted a o s w)) id a
             (with_Status s o)); simpl; [|done|apply lookup_insert_eq].
  unfold persisted in Hs2. simpl in Hs2. rewrite Hs2.
  rewrite decide_False by done.
  split.
  - f_equal. change (persisted a (with_Status s o) s2
                       (advance d (persisted a o s w)))
      with (advance d (persisted a (with_Status s o) s2 (persisted a o s w))).
    by rewrite persisted_twice.
  - repeat split. apply lookup_insert_eq.
Qed.

(** The scenario of the specification: the order expires after one hour; a
    read at time 0 gives "pending", a read after the clock has moved on by
    two hours gives "expired". *)
Lemma GetOrderByID_recomputes_status_witness :
  ∃ o1 o2 w1 w2,
    GetOrderByID Sample.expiry_status "O" Sample.wO = Returned (Ref 1) w1 ∧
    orders (heap w1) !! 1%positive = Some o1 ∧ Order_Status o1 = "pending" ∧
    GetOrderByID Sample.expiry_status "O" (advance (2 * Sample.hour) w1)
      = Returned (Ref 1) w2 ∧
    orders (heap w2) !! 1%positive = Some o2 ∧ Order_Status o2 = "expired" ∧
    same_but_Status Sample.O o2.
Proof.
  assert (Hfree : (1%positive : addr) ∉ Order_RLocks (rlocks (heap Sample.wO)))
    by apply gmultiset_not_elem_of_empty.
  destruct (GetOrderByID_recomputes_status Sample.expiry_status Sample.wO "O"
              1%positive Sample.O "pending" eq_refl eq_refl Hfree eq_refl)
    as (o1 & w1 & Hget & Hw1 & Ho1 & Hs1 & (_ & _ & Hexp) & Hnext).
  destruct (Hnext (2 * Sample.hour) "expired") as
    (o2 & w2 & Hget2 & _ & Ho2 & Hs2 & Hsame).
  { unfold Sample.expiry_status. rewrite Ho1, Hexp. reflexivity. }
  exists o1, o2, w1, w2. repeat split; try assumption; apply Hsame.
Defined.

(** C1.  The read of a stored order does not always return.  [AddOrder]
    of an order without ID returns its error with the read lock of the
    order still held; when the caller then gives the order an ID and adds
    it, [AddOrder] stores it, and [GetOrderByID] of that ID, whose status
    computation succeeds, waits for ever for the write lock of the order:
    it neither persists the status nor returns the order. *)
Theorem GetOrderByID_blocks_after_refused_AddOrder
    (GetStatus : Heap -> addr -> Clock -> string * option error)
    (w : World) (a : addr) (o : Order) (id : string) :
  orders (heap w) !! a = Some o -> Order_ID o = "" ->
  id ≠ "" -> ordersByID (store w) !! id = None ->
  let w1 := kept_RLock KOrder a w in
  let w2 := with_heap (set_orders <[a := with_ID id o]>) w1 in
  let w3 := with_store (set_ordersByID <[id := Ref a]>) w2 in
  AddOrder (Ref a) w = Returned (0, Some (EmptyIdentifier KOrder)) w1 ∧
  AddOrder (Ref a) w2
    = Returned (Z.of_nat (size (ordersByID (store w))) + 1, None) w3 ∧
  ordersByID (store w3) !! id = Some (Ref a) ∧
  orders (heap w3) !! a = Some (with_ID id o) ∧
  ∀ s, GetStatus (heap w3) a (clk (store w3)) = (s, None) ->
       GetOrderByID GetStatus id w3 = Blocked.
Proof.
  intros Ho Hempty Hne Hfresh w1 w2 w3.
  assert (Ho2 : orders (heap w2) !! a = Some (with_ID id o))
    by apply lookup_insert_eq.
  split; [|split; [|split; [|split]]].
  - change AddOrder with (AddX KOrder). rewrite AddX_steps. unfold add_steps.
    simpl. rewrite Ho. simpl. rewrite Hempty. by rewrite decide_True.
  - change AddOrder with (AddX KOrder). rewrite AddX_steps.
    unfold add_steps, ID_at. rewrite Ho2. simpl.
    rewrite decide_False by done. rewrite Hfresh.
    rewrite decide_False by (by intros [? ?]).
    rewrite map_size_insert_None by done. do 2 f_equal. lia.
  - simpl. apply lookup_insert_eq.
  - exact Ho2.
  - intros s Hs.
    rewrite (GetOrderByID_stored _ _ id a (with_ID id o));
      [|apply lookup_insert_eq|exact Ho2].
    rewrite Hs. rewrite decide_True; [done|]. simpl. multiset_solver.
Qed.

(** The world of the example is one a program can be in: a new store, the
    refused [AddOrder], the write of the caller, the second [AddOrder]. *)
Lemma Sample_wLate_reachable GetStatus : reachable GetStatus Sample.wLate.
Proof.
  apply (reach_AddX GetStatus Sample.wNamed KOrder (Ref 2) (1, None));
    [|reflexivity].
  apply (reach_caller GetStatus Sample.wRefused (heap Sample.wNamed)).
  - apply (reach_AddX GetStatus Sample.w0 KOrder (Ref 2)
             (0, Some (EmptyIdentifier KOrder))); [apply reach_new|reflexivity].
  - repeat split; try done. intros p. apply allocated_insert.
Defined.

Lemma GetOrderByID_blocks_after_refused_AddOrder_witness :
  reachable Sample.expiry_status Sample.wLate ∧
  AddOrder (Ref 2) Sample.w0
    = Returned (0, Some (EmptyIdentifier KOrder)) Sample.wRefused ∧
  AddOrder (Ref 2) Sample.wNamed = Returned (1, None) Sample.wLate ∧
  Sample.expiry_status (heap Sample.wLate) 2 (clk (store Sample.wLate))
    = ("pending", None) ∧
  GetOrderByID Sample.expiry_status "late" Sample.wLate = Blocked.
Proof.
  split; [apply Sample_wLate_reachable|].
  pose proof (GetOrderByID_blocks_after_refused_AddOrder Sample.expiry_status
                Sample.w0 2 (mkOrder "" "pending" [] Sample.hour) "late"
                eq_refl eq_refl ltac:(discriminate) eq_refl)
    as (Hadd1 & Hadd2 & _ & _ & Hblocked).
  split; [exact Hadd1|]. split; [exact Hadd2|]. split; [reflexivity|].
  exact (Hblocked "pending" eq_refl).
Defined.

Lemma Sample_wO_wf : wf Sample.wO.
Proof.
  apply (AddX_wf KOrder (Ref 1) Sample.w0 Sample.wO (1, None)).
  - apply NewMemoryStore_wf.
  - reflexivity.
Defined.

Lemma Sample_wLate_wf : wf Sample.wLate.
Proof.
  apply (AddX_wf KOrder (Ref 2) Sample.wNamed Sample.wLate (1, None));
    [|reflexivity].
  apply (persisted_wf 2 (with_ID "late" (mkOrder "" "" [] Sample.hour))
           "pending" Sample.wRefused).
  apply (AddX_wf KOrder (Ref 2) Sample.w0 Sample.wRefused
           (0, Some (EmptyIdentifier KOrder)));
    [apply NewMemoryStore_wf|reflexivity].
Defined.

(** C4.  In a well-formed world, when the status computation reports an
    error for the order stored under [id], [GetOrderByID id] panics with
    that error: it neither returns an error nor returns nil.  It returns
    exactly when no order is stored under [id], or the computation
    succeeds and no read lock is held on the order; when the computation
    succeeds and a read lock is held on the order, as [AddOrder] leaves
    one behind when it refuses an empty ID, [GetOrderByID] waits for ever
    and does not return. *)
Theorem GetOrderByID_returns_iff
    (GetStatus : Heap -> addr -> Clock -> string * option error)
    (w : World) (id : string) :
  wf w ->
  (∀ a s e,
     ordersByID (store w) !! id = Some (Ref a) ->
     GetStatus (heap w) a (clk (store w)) = (s, Some e) ->
     GetOrderByID GetStatus id w = Panicked (PanicError e)) ∧
  ((∃ r w', GetOrderByID GetStatus id w = Returned r w') <->
   (ordersByID (store w) !! id = None ∨
    ∃ a s, ordersByID (store w) !! id = Some (Ref a) ∧
           GetStatus (heap w) a (clk (store w)) = (s, None) ∧
           a ∉ Order_RLocks (rlocks (heap w)))) ∧
  (∀ a s,
     ordersByID (store w) !! id = Some (Ref a) ->
     GetStatus (heap w) a (clk (store w)) = (s, None) ->
     a ∈ Order_RLocks (rlocks (heap w)) ->
     GetOrderByID GetStatus id w = Blocked).
Proof.
  intros Hwf.
  assert (Hstored : ∀ a, ordersByID (store w) !! id = Some (Ref a) ->
                         ∃ o, orders (heap w) !! a = Some o).
  { intros a Hid. exact (wf_orders w Hwf id (Ref a) Hid). }
  split; [|split].
  - intros a s e Hid Hs. destruct (Hstored a Hid) as [o Ho].
    by rewrite (GetOrderByID_stored _ _ _ _ o Hid Ho), Hs.
  - split.
    + intros (r & w' & Hget).
      destruct (ordersByID (store w) !! id) as [[|a]|] eqn:Hid; [| |by left].
      * by destruct (wf_orders w Hwf id Nil Hid).
      * right. destruct (Hstored a eq_refl) as [o Ho].
        rewrite (GetOrderByID_stored _ _ _ _ o Hid Ho) in Hget.
        destruct (GetStatus (heap w) a (clk (store w))) as [s [e|]] eqn:Hs;
          [done|]. case_decide as Hlock; [done|]. by exists a, s.
    + intros [Hid|(a & s & Hid & Hs & Hfree)].
      * exists Nil, w. by apply GetOrderByID_absent.
      * destruct (Hstored a Hid) as [o Ho].
        exists (Ref a), (persisted a o s w).
        rewrite (GetOrderByID_stored _ _ _ _ o Hid Ho), Hs.
        by rewrite decide_False.
  - intros a s Hid Hs Hlock. destruct (Hstored a Hid) as [o Ho].
    rewrite (GetOrderByID_stored _ _ _ _ o Hid Ho), Hs.
    by rewrite decide_True.
Qed.

(** In the world that [AddOrder] has made, the order "late" is stored and
    its status computes, and still its read does not return; with the
    failing computation the read panics, and the read of an ID that was
    never added returns nil. *)
Lemma GetOrderByID_returns_iff_witness :
  ordersByID (store Sample.wLate) !! "late" = Some (Ref 2) ∧
  Sample.expiry_status (heap Sample.wLate) 2 (clk (store Sample.wLate))
    = ("pending", None) ∧
  GetOrderByID Sample.expiry_status "late" Sample.wLate = Blocked ∧
  ¬ (∃ r w', GetOrderByID Sample.expiry_status "late" Sample.wLate
             = Returned r w') ∧
  GetOrderByID Sample.failing_status "late" Sample.wLate
    = Panicked (PanicError (Errorf "order is in an invalid state" [])) ∧
  (∃ r w', GetOrderByID Sample.expiry_status "nope" Sample.wLate
           = Returned r w').
Proof.
  pose proof (GetOrderByID_returns_iff Sample.expiry_status Sample.wLate
                "late" Sample_wLate_wf) as (_ & Hiff & Hblocked).
  pose proof (GetOrderByID_returns_iff Sample.failing_status Sample.wLate
                "late" Sample_wLate_wf) as (Hpanic & _ & _).
  pose proof (GetOrderByID_returns_iff Sample.expiry_status Sample.wLate
                "nope" Sample_wLate_wf) as (_ & Hiff' & _).
  assert (Hheld : (2%positive : addr) ∈ Order_RLocks (rlocks (heap Sample.wLate))).
  { vm_compute. lia. }
  split; [reflexivity|]. split; [reflexivity|]. split; [|split; [|split]].
  - exact (Hblocked 2%positive "pending" eq_refl eq_refl Hheld).
  - intros Hret. apply Hiff in Hret as [Hid|(a & s & Hid & _ & Hfree)];
      [discriminate|]. injection Hid as <-. by apply Hfree.
  - exact (Hpanic 2%positive "" _ eq_refl eq_refl).
  - apply Hiff'. left. reflexivity.
Defined.

(** ** Claims about [AddX] *)

Example EmptyIdentifier_messages :
  EmptyIdentifier <$> [KAccount; KOrder; KAuthorization; KChallenge; KCertificate] =
  [ Errorf "account must have a non-empty ID to add to MemoryStore" [];
    Errorf "order must have a non-empty ID to add to MemoryStore" [];
    Errorf "authz must have a non-empty ID to add to MemoryStore" [];
    Errorf "challenge must have a non-empty ID to add to MemoryStore" [];
    Errorf "cert must have a non-empty ID to add to MemoryStore" [] ].
Proof. reflexivity. Qed.

Example AlreadyExists_messages (id : string) :
  (fun k => AlreadyExists k id) <$>
    [KAccount; KOrder; KAuthorization; KChallenge; KCertificate] =
  [ Errorf "account %q already exists" [id];
    Errorf "order %q already exists" [id];
    Errorf "authz %q already exists" [id];
    Errorf "challenge %q already exists" [id];
    Errorf "cert %q already exists" [id] ].
Proof. reflexivity. Qed.

(** An entity that passes the checks on its fields is stored, and the count
    is the size of the collection with it. *)
Lemma AddX_fresh (k : Kind) (w : World) (a : addr) (i : string) :
  ID_at k (heap w) a = Some i -> i ≠ "" -> key_is_nil k (heap w) a = false ->
  byID k (store w) !! i = None ->
  AddX k (Ref a) w =
    Returned (Z.of_nat (size (byID k (store w))) + 1, None)
             (with_store (set_byID k <[i := Ref a]>) w).
Proof.
  intros Hi Hne Hkey Hfresh. rewrite AddX_steps. unfold add_steps.
  rewrite Hi, Hkey, Hfresh. rewrite decide_False by done.
  rewrite decide_False by (by intros [? ?]).
  rewrite map_size_insert_None by done. do 2 f_equal. lia.
Qed.

(** An entity whose ID is in the collection is refused, whatever the
    collection holds under that ID. *)
Lemma AddX_present (k : Kind) (w : World) (a : addr) (i : string) (p : ptr) :
  ID_at k (heap w) a = Some i -> i ≠ "" ->
  byID k (store w) !! i = Some p ->
  AddX k (Ref a) w =
    Returned (0, Some (if key_is_nil k (heap w) a then MissingRequiredField
                       else AlreadyExists k i)) w.
Proof.
  intros Hi Hne Hp. rewrite AddX_steps. unfold add_steps.
  rewrite Hi, Hp. rewrite decide_False by done.
  destruct (key_is_nil k (heap w) a); [done|].
  by rewrite decide_True by eauto.
Qed.

(** What a successful [AddX] says about its argument and the world. *)
Lemma AddX_success (k : Kind) (p : ptr) (w w1 : World) (n : Z) :
  AddX k p w = Returned (n, None) w1 ->
  ∃ a i, p = Ref a ∧ ID_at k (heap w) a = Some i ∧ i ≠ "" ∧
         key_is_nil k (heap w) a = false ∧ byID k (store w) !! i = None ∧
         w1 = with_store (set_byID k <[i := Ref a]>) w.
Proof.
  rewrite AddX_steps. unfold add_steps.
  destruct p as [|a]; [done|].
  destruct (ID_at k (heap w) a) as [i|] eqn:Hi; [|done].
  case_decide as Hne; [done|].
  destruct (key_is_nil k (heap w) a) eqn:Hkey; [done|].
  case_decide as Hin; [done|]. intros [= _ <-].
  exists a, i. repeat split; try done.
  by apply eq_None_not_Some.
Qed.

Lemma kept_RLock_same (k : Kind) (a : addr) (w : World) :
  store (kept_RLock k a w) = store w ∧
  same_entities (heap w) (heap (kept_RLock k a w)).
Proof. by destruct k. Qed.

(** The five collections are independent: [AddX] for one kind leaves the
    collections of the other kinds, the clock and the entities alone. *)
Lemma AddX_other_collections (k k' : Kind) (p : ptr) (w w' : World)
    (r : Z * option error) :
  k ≠ k' -> AddX k p w = Returned r w' ->
  byID k' (store w') = byID k' (store w) ∧ clk (store w') = clk (store w) ∧
  same_entities (heap w) (heap w').
Proof.
  intros Hk. rewrite AddX_steps. unfold add_steps.
  destruct p as [|a]; [done|].
  destruct (ID_at k (heap w) a) as [i|]; [|done].
  case_decide; [intros [= _ <-]; by destruct k|].
  repeat (case_match; try (intros [= _ <-]; done)).
  intros [= _ <-]. simpl. rewrite byID_set_byID_ne by done.
  by destruct k.
Qed.

(** C8.  [AddX] of an entity whose ID is empty returns the error for a
    missing ID, whatever the other fields hold and whatever the store
    holds: the collections and the entities are as before, and the world is
    the one before the call but for the read lock that [AddOrder] and
    [AddAuthorization] keep.  [AddAccount] of an account whose ID is not
    empty and whose key is nil returns the error for the missing key. *)
Theorem AddX_rejects_empty_ID (k : Kind) (w : World) (a : addr) :
  (ID_at k (heap w) a = Some "" ->
   AddX k (Ref a) w
     = Returned (0, Some (EmptyIdentifier k)) (kept_RLock k a w) ∧
   store (kept_RLock k a w) = store w ∧
   same_entities (heap w) (heap (kept_RLock k a w)) ∧
   (k ≠ KOrder -> k ≠ KAuthorization -> kept_RLock k a w = w)) ∧
  (∀ acct, accounts (heap w) !! a = Some acct ->
           Account_ID acct ≠ "" -> Account_Key acct = Nil ->
           AddAccount (Ref a) w = Returned (0, Some MissingRequiredField) w).
Proof.
  split.
  - intros Hi. split; [|split; [|split]].
    + rewrite AddX_steps. unfold add_steps. by rewrite Hi.
    + apply kept_RLock_same.
    + apply kept_RLock_same.
    + by destruct k.
  - intros acct Ha Hne Hkey. change AddAccount with (AddX KAccount).
    rewrite AddX_steps. unfold add_steps, ID_at, key_is_nil.
    rewrite Ha. simpl. rewrite decide_False by done.
    by rewrite bool_decide_eq_true_2.
Qed.

Lemma AddX_rejects_empty_ID_witness :
  (∃ w', AddX KOrder (Ref 2) Sample.wO
           = Returned (0, Some (EmptyIdentifier KOrder)) w' ∧
         store w' = store Sample.wO) ∧
  AddX KAccount (Ref 3) Sample.w0 = Returned (0, Some (EmptyIdentifier KAccount)) Sample.w0 ∧
  AddAccount (Ref 4) Sample.w0 = Returned (0, Some MissingRequiredField) Sample.w0.
Proof.
  split; [|split].
  - destruct (proj1 (AddX_rejects_empty_ID KOrder Sample.wO 2%positive) eq_refl)
      as (Hadd & Hstore & _).
    by exists (kept_RLock KOrder 2 Sample.wO).
  - exact (proj1 (proj1 (AddX_rejects_empty_ID KAccount Sample.w0 3%positive)
                    eq_refl)).
  - refine (proj2 (AddX_rejects_empty_ID KAccount Sample.w0 4%positive) _ eq_refl _ eq_refl).
    discriminate.
Defined.

(** C9.  A successful [AddX] returns the size of the collection of that
    kind after the insertion, which is one more than its size before. *)
Theorem AddX_returns_new_size (k : Kind) (p : ptr) (w w1 : World) (n : Z) :
  AddX k p w = Returned (n, None) w1 ->
  n = Z.of_nat (size (byID k (store w))) + 1 ∧
  n = Z.of_nat (size (byID k (store w1))).
Proof.
  intros Hadd.
  destruct (AddX_success _ _ _ _ _ Hadd)
    as (a & i & -> & Hi & Hne & Hkey & Hfresh & ->).
  rewrite (AddX_fresh k w a i Hi Hne Hkey Hfresh) in Hadd.
  injection Hadd as <-. split; [done|].
  simpl. rewrite byID_set_byID, map_size_insert_None by done. lia.
Qed.

Lemma AddX_returns_new_size_witness :
  AddX KAccount (Ref 1) Sample.w0 = Returned (1, None) Sample.wA ∧
  1 = Z.of_nat (size (byID KAccount (store Sample.w0))) + 1 ∧
  1 = Z.of_nat (size (byID KAccount (store Sample.wA))).
Proof.
  split; [reflexivity|].
  exact (AddX_returns_new_size KAccount (Ref 1) Sample.w0 Sample.wA 1 eq_refl).
Defined.

(** C10.  When [AddX] returns an error, the error is one of the three the
    method has, the count is 0, and the five collections and the entities
    are as before the call: the world is the one before the call, but for
    the read lock that [AddOrder] and [AddAuthorization] keep when the ID
    is empty. *)
Theorem AddX_error_changes_nothing (k : Kind) (p : ptr) (w w1 : World)
    (n : Z) (e : error) :
  AddX k p w = Returned (n, Some e) w1 ->
  n = 0 ∧ store w1 = store w ∧ same_entities (heap w) (heap w1) ∧
  (w1 = w ∨ ∃ a, p = Ref a ∧ e = EmptyIdentifier k ∧ w1 = kept_RLock k a w) ∧
  (e = EmptyIdentifier k ∨
   (k = KAccount ∧ e = MissingRequiredField) ∨
   (∃ i, is_Some (byID k (store w) !! i) ∧ e = AlreadyExists k i)).
Proof.
  rewrite AddX_steps. unfold add_steps.
  destruct p as [|a]; [done|].
  destruct (ID_at k (heap w) a) as [i|] eqn:Hi; [|done].
  case_decide as Hne.
  { intros [= <- <- <-]. split; [done|].
    destruct (kept_RLock_same k a w) as [Hstore Hsame].
    split; [done|]. split; [done|]. split; [|by left].
    right. by exists a. }
  destruct (key_is_nil k (heap w) a) eqn:Hkey.
  { intros [= <- <- <-]. repeat split; [by left|]. right; left.
    split; [|done]. by destruct k. }
  case_decide as Hin; [|done].
  intros [= <- <- <-]. repeat split; [by left|]. right; right. by exists i.
Qed.

Lemma AddX_error_changes_nothing_witness :
  (∃ n e w1,
     AddX KAccount (Ref 1) Sample.wA = Returned (n, Some e) w1 ∧
     n = 0 ∧ w1 = Sample.wA ∧ e = AlreadyExists KAccount "acct1") ∧
  (∃ n e w1,
     AddX KOrder (Ref 2) Sample.wO = Returned (n, Some e) w1 ∧
     n = 0 ∧ store w1 = store Sample.wO ∧
     same_entities (heap Sample.wO) (heap w1)).
Proof.
  split.
  - exists 0, (AlreadyExists KAccount "acct1"), Sample.wA.
    split; [reflexivity|].
    destruct (AddX_error_changes_nothing KAccount (Ref 1) Sample.wA Sample.wA 0
                (AlreadyExists KAccount "acct1") eq_refl) as (Hn & _).
    by split.
  - exists 0, (EmptyIdentifier KOrder), (kept_RLock KOrder 2 Sample.wO).
    split; [reflexivity|].
    destruct (AddX_error_changes_nothing KOrder (Ref 2) Sample.wO
                (kept_RLock KOrder 2 Sample.wO) 0 (EmptyIdentifier KOrder)
                eq_refl) as (Hn & Hstore & Hsame & _).
    by split.
Defined.

(** ** Adding, then reading or adding again *)

(** An order is added, the status computation rejects it, and the read
    panics: it returns nothing. *)
Lemma add_then_get_fails_for_order :
  ¬ add_then_get_as_stated Sample.failing_status KOrder Sample.w0 1.
Proof.
  intros Hclaim.
  destruct (Hclaim "O" eq_refl ltac:(discriminate) eq_refl eq_refl)
    as (n & w1 & w2 & Hadd & Hget).
  injection Hadd as <- <-. discriminate Hget.
Qed.

(** C2.  An entity with a non-empty ID that is not in its collection (and,
    for an account, with a key) is added.  The read by ID that follows
    returns the pointer that was added and changes nothing, for every kind
    but orders; for an order on which no read lock is held it returns the
    pointer when the status computation succeeds, the order then holding
    the computed status, and for every order it panics when the
    computation fails. *)
Theorem AddX_then_GetXByID
    (GetStatus : Heap -> addr -> Clock -> string * option error)
    (k : Kind) (w : World) (a : addr) (i : string) :
  ID_at k (heap w) a = Some i -> i ≠ "" ->
  key_is_nil k (heap w) a = false ->
  byID k (store w) !! i = None ->
  ∃ n w1,
    AddX k (Ref a) w = Returned (n, None) w1 ∧
    heap w1 = heap w ∧
    (k ≠ KOrder -> GetXByID GetStatus k i w1 = Returned (Ref a) w1) ∧
    (∀ o s, k = KOrder -> orders (heap w) !! a = Some o ->
            a ∉ Order_RLocks (rlocks (heap w)) ->
            GetStatus (heap w) a (clk (store w)) = (s, None) ->
            GetXByID GetStatus k i w1 = Returned (Ref a) (persisted a o s w1)) ∧
    (∀ s e, k = KOrder ->
            GetStatus (heap w) a (clk (store w)) = (s, Some e) ->
            GetXByID GetStatus k i w1 = Panicked (PanicError e)).
Proof.
  intros Hi Hne Hkey Hfresh.
  eexists _, _. split; [by apply AddX_fresh|].
  split; [done|].
  assert (Hin : byID k (store (with_store (set_byID k <[i := Ref a]>) w)) !! i
                = Some (Ref a)).
  { simpl. rewrite byID_set_byID. apply lookup_insert_eq. }
  split; [|split].
  - intros Hk. destruct k; try done; unfold GetXByID, GetAccountByID,
      GetAuthorizationByID, GetChallengeByID, GetCertificateByID, gets;
      f_equal; by apply index_Ref.
  - intros o s -> Ho Hfree Hs. simpl.
    rewrite (GetOrderByID_stored _ _ i a o); [|done..].
    simpl. rewrite Hs. by rewrite decide_False.
  - intros s e -> Hs. simpl. simpl in Hi.
    apply fmap_Some in Hi as (o & Ho & _).
    rewrite (GetOrderByID_stored _ _ i a o); [|done..].
    simpl. by rewrite Hs.
Qed.

Lemma AddX_then_GetXByID_witness :
  (∃ n w1,
     AddX KCertificate (Ref 2) Sample.w0 = Returned (n, None) w1 ∧
     GetXByID Sample.expiry_status KCertificate "c2" w1 = Returned (Ref 2) w1 ∧
     heap w1 = Sample.heap0) ∧
  (∃ n w1,
     AddX KOrder (Ref 1) Sample.w0 = Returned (n, None) w1 ∧
     GetXByID Sample.expiry_status KOrder "O" w1
       = Returned (Ref 1) (persisted 1 Sample.O "pending" w1)).
Proof.
  split.
  - destruct (AddX_then_GetXByID Sample.expiry_status KCertificate Sample.w0
                2 "c2" eq_refl ltac:(discriminate) eq_refl eq_refl)
      as (n & w1 & Hadd & Hheap & Hget & _).
    exists n, w1. split; [exact Hadd|]. split; [by apply Hget|exact Hheap].
  - destruct (AddX_then_GetXByID Sample.expiry_status KOrder Sample.w0
                1 "O" eq_refl ltac:(discriminate) eq_refl eq_refl)
      as (n & w1 & Hadd & _ & _ & Hget & _).
    exists n, w1. split; [exact Hadd|]. apply Hget; try done.
    apply gmultiset_not_elem_of_empty.
Defined.

(** An account whose ID is taken and whose key is nil is refused for its
    key, not for its ID. *)
Lemma add_twice_fails_for_account_without_key :
  ¬ add_twice_as_stated KAccount Sample.w0 1 2.
Proof.
  intros Hclaim.
  destruct (Hclaim "acct1" 1 Sample.wA eq_refl eq_refl eq_refl) as [Hadd _].
  discriminate Hadd.
Qed.

(** C3.  After [AddX] has stored an entity with ID [i], [AddX] of an entity
    with the same ID stores nothing and returns an error: the error for an
    ID that exists, except for an account whose key is nil, which gets the
    error for the missing key.  The pointer stored under [i] is still the
    first one. *)
Theorem AddX_twice (k : Kind) (w w1 : World) (a1 a2 : addr) (i : string) (n : Z) :
  ID_at k (heap w) a1 = Some i -> ID_at k (heap w) a2 = Some i ->
  AddX k (Ref a1) w = Returned (n, None) w1 ->
  AddX k (Ref a2) w1 =
    Returned (0, Some (if key_is_nil k (heap w) a2 then MissingRequiredField
                       else AlreadyExists k i)) w1 ∧
  byID k (store w1) !! i = Some (Ref a1).
Proof.
  intros Hi1 Hi2 Hadd.
  destruct (AddX_success _ _ _ _ _ Hadd)
    as (a & i' & [= <-] & Hi' & Hne & _ & _ & ->).
  assert (i' = i) as -> by congruence.
  assert (Hin : byID k (store (with_store (set_byID k <[i := Ref a1]>) w)) !! i
                = Some (Ref a1)).
  { simpl. rewrite byID_set_byID. apply lookup_insert_eq. }
  split; [|done].
  by rewrite (AddX_present k _ a2 i (Ref a1)).
Qed.

Lemma AddX_twice_witness :
  (AddX KAccount (Ref 2) Sample.wA
     = Returned (0, Some MissingRequiredField) Sample.wA ∧
   byID KAccount (store Sample.wA) !! "acct1" = Some (Ref 1)) ∧
  (AddX KOrder (Ref 3) Sample.wO
     = Returned (0, Some (AlreadyExists KOrder "O")) Sample.wO ∧
   byID KOrder (store Sample.wO) !! "O" = Some (Ref 1)).
Proof.
  split.
  - exact (AddX_twice KAccount Sample.w0 Sample.wA 1 2 "acct1" 1
             eq_refl eq_refl eq_refl).
  - exact (AddX_twice KOrder Sample.w0 Sample.wO 1 3 "O" 1
             eq_refl eq_refl eq_refl).
Defined.

(** ** Accounts are replaced, certificates are revoked *)

(** C6.  [UpdateAccountByID id acct] returns the error for an account that
    does not exist and leaves the world as it is when no account is stored
    under [id]; when one is, it returns no error and the collection holds
    [acct] under [id] in place of the old pointer, nothing else having
    changed, so that [GetAccountByID id] returns [acct]. *)
Theorem UpdateAccountByID_replaces (w : World) (id : string) (acct : ptr) :
  (accountsByID (store w) !! id = None ∨
   accountsByID (store w) !! id = Some Nil ->
   UpdateAccountByID id acct w = Returned (Some (NotFound id)) w) ∧
  (∀ a, accountsByID (store w) !! id = Some (Ref a) ->
        ∃ w', UpdateAccountByID id acct w = Returned None w' ∧
              w' = with_store (set_accountsByID <[id := acct]>) w ∧
              GetAccountByID id w' = Returned acct w').
Proof.
  unfold UpdateAccountByID. run. split.
  - intros Habsent. apply index_Nil in Habsent.
    by rewrite decide_True by done.
  - intros a Ha. apply index_Ref in Ha as Hidx.
    rewrite decide_False by (rewrite Hidx; discriminate).
    eexists. split; [done|]. split; [done|].
    unfold GetAccountByID, gets, index. simpl.
    by rewrite lookup_insert_eq.
Qed.

Lemma UpdateAccountByID_replaces_witness :
  UpdateAccountByID "acct1" (Ref 4) Sample.w0
    = Returned (Some (NotFound "acct1")) Sample.w0 ∧
  ∃ w', UpdateAccountByID "acct1" (Ref 4) Sample.wA = Returned None w' ∧
        GetAccountByID "acct1" w' = Returned (Ref 4) w'.
Proof.
  split.
  - apply (UpdateAccountByID_replaces Sample.w0 "acct1" (Ref 4)).
    left. reflexivity.
  - destruct (proj2 (UpdateAccountByID_replaces Sample.wA "acct1" (Ref 4))
                1%positive eq_refl) as (w' & Hupd & _ & Hget).
    exists w'. by split.
Defined.

Lemma RevokeCertificate_steps (w : World) (a : addr) (c : Certificate) :
  certificates (heap w) !! a = Some c ->
  RevokeCertificate (Ref a) w =
    Returned tt (with_store (set_certificatesByID (delete (Certificate_ID c))) w).
Proof. intros Ha. unfold RevokeCertificate. run. by rewrite Ha. Qed.

(** C7.  [RevokeCertificate cert] removes the entry under the ID of [cert]
    and returns; it has no error to return and does not panic.  After it no
    certificate is stored under that ID, whether or not one was; a second
    call changes nothing more, and a call for an ID that was not stored
    changes nothing at all. *)
Theorem RevokeCertificate_idempotent (w : World) (a : addr) (c : Certificate) :
  certificates (heap w) !! a = Some c ->
  ∃ w1,
    RevokeCertificate (Ref a) w = Returned tt w1 ∧
    w1 = with_store (set_certificatesByID (delete (Certificate_ID c))) w ∧
    certificatesByID (store w1) !! Certificate_ID c = None ∧
    GetCertificateByID (Certificate_ID c) w1 = Returned Nil w1 ∧
    RevokeCertificate (Ref a) w1 = Returned tt w1 ∧
    (certificatesByID (store w) !! Certificate_ID c = None -> w1 = w).
Proof.
  intros Ha. rewrite (RevokeCertificate_steps w a c Ha).
  eexists. split; [done|]. split; [done|]. simpl.
  split; [apply lookup_delete_eq|].
  split; [|split].
  - unfold GetCertificateByID, gets, index. simpl.
    by rewrite lookup_delete_eq.
  - rewrite (RevokeCertificate_steps _ a c) by done.
    f_equal. unfold with_store, set_certificatesByID. simpl.
    by rewrite delete_delete_eq.
  - intros Hnone. destruct w as [h m], m. unfold with_store,
      set_certificatesByID. simpl in *. by rewrite delete_id.
Qed.

Lemma RevokeCertificate_idempotent_witness :
  (∃ w1, RevokeCertificate (Ref 2) Sample.wC = Returned tt w1 ∧
         GetCertificateByID "c2" w1 = Returned Nil w1 ∧
         RevokeCertificate (Ref 2) w1 = Returned tt w1) ∧
  RevokeCertificate (Ref 2) Sample.w0 = Returned tt Sample.w0.
Proof.
  split.
  - destruct (RevokeCertificate_idempotent Sample.wC 2 _ eq_refl)
      as (w1 & Hrev & _ & _ & Hget & Hagain & _).
    exists w1. by repeat split.
  - destruct (RevokeCertificate_idempotent Sample.w0 2 _ eq_refl)
      as (w1 & Hrev & _ & _ & _ & _ & Hsame).
    by rewrite <- (Hsame eq_refl) at 2.
Defined.

(** ** Finding a certificate by its DER *)

(** The loop returns the first entry whose DER is deeply equal to [der],
    and nil when there is none; it leaves the world alone. *)
Lemma scan_DER_finds (w : World) (der : ByteSlice) (entries : list (string * ptr)) :
  Forall (fun e => allocated (certificates (heap w)) e.2) entries ->
  ∃ r, scan_DER der entries w = Returned r w ∧
       match r with
       | Nil =>
           ∀ id a c, (id, Ref a) ∈ entries ->
                     certificates (heap w) !! a = Some c ->
                     DeepEqual (Certificate_DER c) der = false
       | Ref a =>
           ∃ id c, (id, Ref a) ∈ entries ∧
                   certificates (heap w) !! a = Some c ∧
                   DeepEqual (Certificate_DER c) der = true
       end.
Proof.
  induction entries as [|[id p] rest IH]; intros Hall.
  - exists Nil. split; [done|]. intros id a c Hin. by inversion Hin.
  - apply list.Forall_cons in Hall as [Hp Hrest]. simpl in Hp.
    destruct p as [|a]; [done|]. destruct Hp as [c Hc].
    simpl. run. rewrite Hc.
    destruct (DeepEqual (Certificate_DER c) der) eqn:Heq.
    + exists (Ref a). split; [done|]. exists id, c.
      split; [apply elem_of_cons; by left|done].
    + destruct (IH Hrest) as (r & Hscan & Hr). exists r. split; [done|].
      destruct r as [|b].
      * intros id' a' c' Hin Hc'. apply elem_of_cons in Hin as [[= -> ->]|Hin].
        -- congruence.
        -- by eapply Hr.
      * destruct Hr as (id' & c' & Hin & Hr). exists id', c'.
        split; [apply elem_of_cons; by right|done].
Qed.

Lemma matches_DeepEqual (w : World) (der : ByteSlice) (a : addr) (c : Certificate) :
  matches w der a c <->
  stored_certificate w a c ∧ DeepEqual (Certificate_DER c) der = true.
Proof. unfold matches. by rewrite DeepEqual_bytes. Qed.

(** A stored certificate with an empty, non-nil DER is not found by the nil
    slice, though both hold the same bytes: none. *)
Lemma lookup_by_bytes_fails_for_nil :
  ¬ lookup_by_bytes_as_stated Sample.wC [("c1", Ref 1); ("c2", Ref 2)] NilSlice.
Proof.
  intros Hclaim. destruct Hclaim as [Hfound _].
  - apply (AddX_wf KCertificate (Ref 2)
             (with_store (set_certificatesByID <["c1" := Ref 1]>) Sample.w0)
             _ (2, None)); [|reflexivity].
    apply (AddX_wf KCertificate (Ref 1) Sample.w0 _ (1, None));
      [apply NewMemoryStore_wf|reflexivity].
  - by vm_compute.
  - destruct Hfound as (a & c & Hget & _).
    + exists 1%positive, (mkCertificate "c1" (Slice [])).
      split; [by exists "c1"|done].
    + discriminate Hget.
Qed.

(** C5.  In a well-formed world, whatever the order in which the loop
    visits the certificates, [GetCertificateByDER der] returns without
    changing anything; it returns a stored certificate whose DER is deeply
    equal to [der] (the same bytes, and nil only if [der] is nil) when
    there is one, and nil when there is none, in particular when no stored
    certificate has the bytes of [der].  When [der] is not empty, the
    bytes alone decide. *)
Theorem GetCertificateByDER_finds_deep_equal
    (w : World) (visit : list (string * ptr)) (der : ByteSlice) :
  wf w -> visit ≡ₚ map_to_list (certificatesByID (store w)) ->
  ∃ r, GetCertificateByDER visit der w = Returned r w ∧
       ((∃ a c, matches w der a c) ->
        ∃ a c, r = Ref a ∧ matches w der a c) ∧
       ((¬ ∃ a c, matches w der a c) -> r = Nil) ∧
       ((∀ a c, stored_certificate w a c ->
                bytes_of (Certificate_DER c) ≠ bytes_of der) -> r = Nil) ∧
       (bytes_of der ≠ [] ->
        (∃ a c, stored_certificate w a c ∧
                bytes_of (Certificate_DER c) = bytes_of der) ->
        ∃ a c, r = Ref a ∧ stored_certificate w a c ∧
               bytes_of (Certificate_DER c) = bytes_of der).
Proof.
  intros Hwf Hperm.
  assert (Hin : ∀ id p, (id, p) ∈ visit <->
                        certificatesByID (store w) !! id = Some p).
  { intros id p. rewrite Hperm. apply elem_of_map_to_list. }
  assert (Hall : Forall (fun e => allocated (certificates (heap w)) e.2) visit).
  { apply Forall_forall. intros [id p] Hp. apply Hin in Hp.
    exact (wf_certificates w Hwf id p Hp). }
  destruct (scan_DER_finds w der visit Hall) as (r & Hscan & Hr).
  exists r. split; [exact Hscan|].
  assert (Hhit : (∃ a c, matches w der a c) -> ∃ a c, r = Ref a ∧ matches w der a c).
  { intros (a & c & Hm). apply matches_DeepEqual in Hm as [(id & Hid & Hc) Heq].
    destruct r as [|b].
    - apply Hin in Hid. specialize (Hr id a c Hid Hc). congruence.
    - destruct Hr as (id' & c' & Hid' & Hc' & Heq'). exists b, c'.
      split; [done|]. apply matches_DeepEqual. split; [|done].
      exists id'. split; [by apply Hin|done]. }
  assert (Hmiss : (¬ ∃ a c, matches w der a c) -> r = Nil).
  { intros Hnone. destruct r as [|b]; [done|].
    destruct Hr as (id' & c' & Hid' & Hc' & Heq'). destruct Hnone.
    exists b, c'. apply matches_DeepEqual. split; [|done].
    exists id'. split; [by apply Hin|done]. }
  split; [exact Hhit|]. split; [exact Hmiss|]. split.
  - intros Hbytes. apply Hmiss. intros (a & c & Hst & Heq & _).
    by apply (Hbytes a c).
  - intros Hder (a & c & Hst & Heq).
    destruct Hhit as (a' & c' & -> & Hst' & Heq' & _).
    + exists a, c. repeat split; try done.
      * intros Hnil. rewrite Hnil in Heq. by symmetry in Heq.
      * intros ->. done.
    + by exists a', c'.
Qed.

Lemma Sample_wC_wf : wf Sample.wC.
Proof.
  apply (AddX_wf KCertificate (Ref 2)
           (with_store (set_certificatesByID <["c1" := Ref 1]>) Sample.w0)
           _ (2, None)); [|reflexivity].
  apply (AddX_wf KCertificate (Ref 1) Sample.w0 _ (1, None));
    [apply NewMemoryStore_wf|reflexivity].
Defined.

(** The certificate "c2" is found by its three bytes, in either order of
    the visit; a prefix of these bytes finds nothing. *)
Lemma GetCertificateByDER_finds_deep_equal_witness :
  (∃ r, GetCertificateByDER [("c2", Ref 2); ("c1", Ref 1)]
          (Slice [x30; x82; x01]) Sample.wC = Returned r Sample.wC ∧
        ∃ a c, r = Ref a ∧ stored_certificate Sample.wC a c ∧
               bytes_of (Certificate_DER c) = [x30; x82; x01]) ∧
  (∃ r, GetCertificateByDER [("c1", Ref 1); ("c2", Ref 2)]
          (Slice [x30; x82]) Sample.wC = Returned r Sample.wC ∧ r = Nil).
Proof.
  split.
  - destruct (GetCertificateByDER_finds_deep_equal Sample.wC
                [("c2", Ref 2); ("c1", Ref 1)] (Slice [x30; x82; x01])
                Sample_wC_wf) as (r & Hget & _ & _ & _ & Hbytes).
    { vm_compute. apply perm_swap. }
    exists r. split; [exact Hget|]. apply Hbytes; [discriminate|].
    exists 2%positive, (mkCertificate "c2" (Slice [x30; x82; x01])).
    split; [by exists "c2"|done].
  - destruct (GetCertificateByDER_finds_deep_equal Sample.wC
                [("c1", Ref 1); ("c2", Ref 2)] (Slice [x30; x82])
                Sample_wC_wf) as (r & Hget & _ & _ & Hnone & _).
    { by vm_compute. }
    exists r. split; [exact Hget|]. apply Hnone.
    intros a c (id & Hid & Hc).
    assert (Hcases : (id = "c1" ∧ a = 1%positive) ∨ (id = "c2" ∧ a = 2%positive)).
    { change (certificatesByID (store Sample.wC))
        with (<["c1" := Ref 1]> (<["c2" := Ref 2]> (∅ : gmap string ptr))) in Hid.
      apply lookup_insert_Some in Hid as [[<- [= <-]]|[_ Hid]]; [by left|].
      apply lookup_insert_Some in Hid as [[<- [= <-]]|[_ Hid]]; [by right|].
      by rewrite lookup_empty in Hid. }
    destruct Hcases as [[-> ->]|[-> ->]]; injection Hc as <-; discriminate.
Defined.


(** ** What a call can and cannot do *)

(** The loop over the certificates only reads. *)
Lemma scan_DER_reads (der : ByteSlice) (entries : list (string * ptr))
    (w w' : World) (r : ptr) :
  scan_DER der entries w = Returned r w' -> w' = w.
Proof.
  induction entries as [|[id p] rest IH]; simpl.
  - by intros [= _ <-].
  - run. destruct p as [|a]; [done|].
    destruct (certificates (heap w) !! a) as [c|]; [|done].
    destruct (DeepEqual (Certificate_DER c) der); [by intros [= _ <-]|done].
Qed.

Lemma with_store_same (k : Kind) (w : World) :
  with_store (set_byID k (fun _ => byID k (store w))) w = w.
Proof. by destruct w as [h []], k. Qed.

(** [AddX] returns an error and the world it was given, with in one case
    a read lock more, or the new size and the world with the entity in its
    collection. *)
Lemma AddX_cases (k : Kind) (p : ptr) (w w' : World) (r : Z * option error) :
  AddX k p w = Returned r w' ->
  ((∃ e, r = (0, Some e)) ∧ (w' = w ∨ ∃ a, w' = kept_RLock k a w)) ∨
  ∃ a i, p = Ref a ∧ ID_at k (heap w) a = Some i ∧ i ≠ "" ∧
         key_is_nil k (heap w) a = false ∧ byID k (store w) !! i = None ∧
         r = (Z.of_nat (size (byID k (store w))) + 1, None) ∧
         w' = with_store (set_byID k <[i := p]>) w.
Proof.
  rewrite AddX_steps. unfold add_steps.
  destruct p as [|a]; [done|].
  destruct (ID_at k (heap w) a) as [i|] eqn:Hi; [|done].
  case_decide as Hne; [intros [= <- <-]; left; eauto|].
  destruct (key_is_nil k (heap w) a) eqn:Hkey;
    [intros [= <- <-]; left; eauto|].
  case_decide as Hin; [intros [= <- <-]; left; eauto|].
  intros [= <- <-]. right. exists a, i.
  apply eq_None_not_Some in Hin.
  rewrite map_size_insert_None by done.
  repeat split; try done. do 2 f_equal. lia.
Qed.

(** A call that returns has left the collections and the entities as they
    were, or has made the one change of its method. *)
Lemma call_effect GetStatus (c : Call) (w w' : World) :
  call GetStatus c w = Returned tt w' ->
  match c with
  | CallAddX k p =>
      (store w' = store w ∧ same_entities (heap w) (heap w')) ∨
      ∃ a i, p = Ref a ∧ ID_at k (heap w) a = Some i ∧ i ≠ "" ∧
             byID k (store w) !! i = None ∧
             w' = with_store (set_byID k <[i := p]>) w
  | CallGetXByID k id =>
      w' = w ∨
      k = KOrder ∧
      ∃ a o s, ordersByID (store w) !! id = Some (Ref a) ∧
               orders (heap w) !! a = Some o ∧ w' = persisted a o s w
  | CallUpdateAccountByID id acct =>
      w' = w ∨
      is_Some (accountsByID (store w) !! id) ∧
      w' = with_store (set_accountsByID <[id := acct]>) w
  | CallGetCertificateByDER _ _ => w' = w
  | CallRevokeCertificate cert =>
      ∃ a crt, cert = Ref a ∧ certificates (heap w) !! a = Some crt ∧
               w' = with_store (set_certificatesByID
                                  (delete (Certificate_ID crt))) w
  end.
Proof.
  destruct c as [k p|k id|id acct|visit der|cert]; unfold call; run.
  - destruct (AddX k p w) as [r w1|v|] eqn:Hadd; intros [= <-].
    destruct (AddX_cases _ _ _ _ _ Hadd)
      as [[_ [->|[a ->]]]|(a & i & -> & Hi & Hne & _ & Hfresh & _ & ->)].
    + by left.
    + left. apply kept_RLock_same.
    + right. by exists a, i.
  - destruct k; simpl; try (unfold GetAccountByID, GetAuthorizationByID,
      GetChallengeByID, GetCertificateByID, gets; intros [= <-]; by left).
    destruct (ordersByID (store w) !! id) as [[|a]|] eqn:Hid.
    + unfold GetOrderByID, Order_GetStatus. run. by rewrite Hid.
    + destruct (orders (heap w) !! a) as [o|] eqn:Ho.
      * rewrite (GetOrderByID_stored _ _ _ _ o Hid Ho).
        destruct (GetStatus _ _ _) as [s [e|]]; [done|].
        case_decide; [done|]. intros [= <-].
        right. split; [done|]. by exists a, o, s.
      * unfold GetOrderByID, Order_GetStatus. run. by rewrite Hid, Ho.
    + rewrite GetOrderByID_absent by done. intros [= <-]. by left.
  - unfold UpdateAccountByID. run. case_decide as Hidx; intros [= <-];
      [by left|right]. split; [|done].
    unfold index in Hidx. by destruct (accountsByID (store w) !! id).
  - unfold GetCertificateByDER.
    destruct (scan_DER der visit w) as [r w1|v|] eqn:Hscan; intros [= <-].
    by apply scan_DER_reads in Hscan.
  - unfold RevokeCertificate. run. destruct cert as [|a]; [done|].
    destruct (certificates (heap w) !! a) as [crt|] eqn:Hc; [|done].
    intros [= <-]. by exists a, crt.
Qed.

(** X1.  Whatever method is called and whatever it is given, when the call
    returns the accounts, authorizations, challenges and certificates are
    as they were, no order has appeared or gone, every order has its fields
    as before but perhaps for its status, and the clock of the store is the
    same. *)
Theorem call_writes_only_Status GetStatus (c : Call) (w w' : World) :
  call GetStatus c w = Returned tt w' ->
  accounts (heap w') = accounts (heap w) ∧
  authorizations (heap w') = authorizations (heap w) ∧
  challenges (heap w') = challenges (heap w) ∧
  certificates (heap w') = certificates (heap w) ∧
  clk (store w') = clk (store w) ∧
  (∀ a o, orders (heap w) !! a = Some o ->
          ∃ o', orders (heap w') !! a = Some o' ∧ same_but_Status o o') ∧
  (∀ a, orders (heap w) !! a = None -> orders (heap w') !! a = None).
Proof.
  intros Hcall. apply call_effect in Hcall.
  assert (Hsame : w' = w ∨
                  same_entities (heap w) (heap w') ∧
                  clk (store w') = clk (store w) ∨
                  ∃ a o s, orders (heap w) !! a = Some o ∧ w' = persisted a o s w).
  { destruct c as [k p|k id|id acct|visit der|cert].
    - destruct Hcall as [[Hst Hent]|(a & i & _ & _ & _ & _ & ->)].
      + right; left. by rewrite Hst.
      + right; left. by destruct k.
    - destruct Hcall as [->|(_ & a & o & s & _ & Ho & ->)]; [by left|].
      right; right. by exists a, o, s.
    - destruct Hcall as [->|(_ & ->)]; [by left|]. by right; left.
    - by left.
    - destruct Hcall as (a & crt & _ & _ & ->). by right; left. }
  destruct Hsame as [->|[[(Hac & Hod & Hau & Hch & Hce) Hclk]
                        |(a & o & s & Ho & ->)]].
  - repeat split; try done. intros a o Ho. by exists o.
  - rewrite Hod. repeat split; try done. intros a o Ho. by exists o.
  - repeat split; try done; simpl.
    + intros b o' Ho'. destruct (decide (a = b)) as [<-|Hne].
      * rewrite lookup_insert_eq. assert (o' = o) as -> by congruence.
        by exists (with_Status s o).
      * rewrite lookup_insert_ne by done. by exists o'.
    + intros b Hb. rewrite lookup_insert_ne; [done|]. congruence.
Qed.

Lemma call_writes_only_Status_witness :
  ∃ w', call Sample.expiry_status (CallGetXByID KOrder "O") Sample.wO
          = Returned tt w' ∧
        accounts (heap w') = accounts Sample.heap0 ∧
        certificates (heap w') = certificates Sample.heap0 ∧
        ∃ o', orders (heap w') !! 1%positive = Some o' ∧
              same_but_Status Sample.O o'.
Proof.
  exists (persisted 1 Sample.O "pending" Sample.wO).
  split; [reflexivity|].
  destruct (call_writes_only_Status Sample.expiry_status
              (CallGetXByID KOrder "O") Sample.wO
              (persisted 1 Sample.O "pending" Sample.wO) eq_refl)
    as (Hacct & _ & _ & Hcert & _ & Hord & _).
  split; [exact Hacct|]. split; [exact Hcert|].
  exact (Hord 1%positive Sample.O eq_refl).
Defined.

Lemma lookup_set_byID (k k' : Kind) f (m : MemoryStore) (id : string) :
  byID k' (set_byID k f m) !! id =
  if decide (k = k') then f (byID k m) !! id else byID k' m !! id.
Proof.
  case_decide as Hk.
  - subst. by rewrite byID_set_byID.
  - by rewrite byID_set_byID_ne.
Qed.

(** X2.  An entry of a collection stays as it is through every call that
    returns, with two exceptions: [UpdateAccountByID id] puts its argument
    under [id] in the accounts, and [RevokeCertificate cert] removes the
    entry of the certificates under the ID of [cert], and no other.
    Orders, authorizations and challenges are never removed nor
    replaced. *)
Theorem call_keeps_entries GetStatus (c : Call) (w w' : World)
    (k : Kind) (id : string) (p : ptr) :
  call GetStatus c w = Returned tt w' ->
  byID k (store w) !! id = Some p ->
  byID k (store w') !! id = Some p ∨
  (k = KAccount ∧ ∃ acct, c = CallUpdateAccountByID id acct ∧
                          byID k (store w') !! id = Some acct) ∨
  (k = KCertificate ∧
   ∃ a crt, c = CallRevokeCertificate (Ref a) ∧
            certificates (heap w) !! a = Some crt ∧
            Certificate_ID crt = id ∧
            byID k (store w') !! id = None).
Proof.
  intros Hcall Hp. apply call_effect in Hcall.
  destruct c as [k0 p0|k0 id0|id0 acct|visit der|cert].
  - destruct Hcall as [[Hst _]|(a & i & _ & _ & _ & Hfresh & ->)];
      [left; by rewrite Hst|].
    left. simpl. rewrite lookup_set_byID. case_decide as Hk; [|done].
    subst k0. rewrite lookup_insert_ne; [done|]. congruence.
  - destruct Hcall as [->|(_ & a & o & s & _ & _ & ->)]; by left.
  - destruct Hcall as [->|(_ & ->)]; [by left|].
    change set_accountsByID with (set_byID KAccount). cbn [store with_store].
    rewrite lookup_set_byID. case_decide as Hk; [|by left]. subst k.
    destruct (decide (id0 = id)) as [->|Hne].
    + right; left. split; [done|]. exists acct.
      by rewrite lookup_insert_eq.
    + left. by rewrite lookup_insert_ne.
  - subst. by left.
  - destruct Hcall as (a & crt & -> & Hcrt & ->).
    change set_certificatesByID with (set_byID KCertificate).
    cbn [store with_store]. rewrite lookup_set_byID.
    case_decide as Hk; [|by left]. subst k.
    destruct (decide (Certificate_ID crt = id)) as [<-|Hne].
    + right; right. split; [done|]. exists a, crt.
      by rewrite lookup_delete_eq.
    + left. by rewrite lookup_delete_ne.
Qed.

(** An update replaces the account under its ID; a revocation removes the
    certificate under the ID of its argument and leaves the other one. *)
Lemma call_keeps_entries_witness :
  (∃ w', call Sample.expiry_status (CallUpdateAccountByID "acct1" (Ref 4))
           Sample.wA = Returned tt w' ∧
         byID KAccount (store Sample.wA) !! "acct1" = Some (Ref 1) ∧
         byID KAccount (store w') !! "acct1" = Some (Ref 4)) ∧
  (∃ w', call Sample.expiry_status (CallRevokeCertificate (Ref 2))
           Sample.wC = Returned tt w' ∧
         byID KCertificate (store w') !! "c1" = Some (Ref 1) ∧
         byID KCertificate (store w') !! "c2" = None).
Proof.
  split.
  - exists (with_store (set_accountsByID <["acct1" := Ref 4]>) Sample.wA).
    split; [reflexivity|]. split; [reflexivity|].
    destruct (call_keeps_entries Sample.expiry_status
                (CallUpdateAccountByID "acct1" (Ref 4)) Sample.wA
                (with_store (set_accountsByID <["acct1" := Ref 4]>) Sample.wA)
                KAccount "acct1" (Ref 1) eq_refl eq_refl)
      as [Hkept|[(_ & acct & [= <-] & Hnew)|(Hk & _)]].
    + discriminate Hkept.
    + exact Hnew.
    + discriminate Hk.
  - exists (with_store (set_certificatesByID (delete "c2")) Sample.wC).
    split; [reflexivity|]. split.
    + destruct (call_keeps_entries Sample.expiry_status
                  (CallRevokeCertificate (Ref 2)) Sample.wC
                  (with_store (set_certificatesByID (delete "c2")) Sample.wC)
                  KCertificate "c1" (Ref 1) eq_refl eq_refl)
        as [Hkept|[(Hk & _)|(_ & a & crt & [= <-] & Hcrt & Hid & _)]].
      * exact Hkept.
      * discriminate Hk.
      * injection Hcrt as <-. discriminate Hid.
    + destruct (call_keeps_entries Sample.expiry_status
                  (CallRevokeCertificate (Ref 2)) Sample.wC
                  (with_store (set_certificatesByID (delete "c2")) Sample.wC)
                  KCertificate "c2" (Ref 2) eq_refl eq_refl)
        as [Hkept|[(Hk & _)|(_ & a & crt & _ & _ & _ & Hgone)]].
      * discriminate Hkept.
      * discriminate Hk.
      * exact Hgone.
Defined.

(** X3.  Only [AddX] makes an entry: when a call returns and a collection
    has an entry under an ID it had none under, the call was [AddX] for
    that kind, and the entry is the pointer it was given.  In particular
    [UpdateAccountByID] never inserts. *)
Theorem only_AddX_makes_entries GetStatus (c : Call) (w w' : World)
    (k : Kind) (id : string) (p : ptr) :
  call GetStatus c w = Returned tt w' ->
  byID k (store w) !! id = None ->
  byID k (store w') !! id = Some p ->
  c = CallAddX k p.
Proof.
  intros Hcall Hnone Hp. apply call_effect in Hcall.
  destruct c as [k0 p0|k0 id0|id0 acct|visit der|cert].
  - destruct Hcall as [[Hst _]|(a & i & _ & _ & _ & _ & ->)];
      [rewrite Hst in Hp; congruence|].
    simpl in Hp. rewrite lookup_set_byID in Hp.
    case_decide as Hk; [|congruence]. subst k0.
    apply lookup_insert_Some in Hp as [[_ ->]|[_ Hp]]; [done|congruence].
  - destruct Hcall as [->|(_ & a & o & s & _ & _ & ->)]; simpl in Hp;
      congruence.
  - destruct Hcall as [->|([q Hq] & ->)]; [congruence|].
    change set_accountsByID with (set_byID KAccount) in Hp.
    cbn [store with_store] in Hp. rewrite lookup_set_byID in Hp. case_decide as Hk; [|congruence]. subst k.
    apply lookup_insert_Some in Hp as [[<- _]|[_ Hp]]; simpl in *; congruence.
  - subst. congruence.
  - destruct Hcall as (a & crt & _ & _ & ->).
    change set_certificatesByID with (set_byID KCertificate) in Hp.
    cbn [store with_store] in Hp. rewrite lookup_set_byID in Hp.
    case_decide as Hk; [|congruence]. subst k.
    apply lookup_delete_Some in Hp as [_ Hp]. simpl in *. congruence.
Qed.

Lemma only_AddX_makes_entries_witness :
  call Sample.expiry_status (CallAddX KOrder (Ref 1)) Sample.w0
    = Returned tt Sample.wO ∧
  byID KOrder (store Sample.w0) !! "O" = None ∧
  byID KOrder (store Sample.wO) !! "O" = Some (Ref 1) ∧
  CallAddX KOrder (Ref 1) = CallAddX KOrder (Ref 1).
Proof.
  split; [reflexivity|]. split; [reflexivity|]. split; [reflexivity|].
  exact (only_AddX_makes_entries Sample.expiry_status (CallAddX KOrder (Ref 1))
           Sample.w0 Sample.wO KOrder "O" (Ref 1) eq_refl eq_refl eq_refl).
Defined.

(** ** What holds in every world a program can be in *)

Lemma AddX_as_call GetStatus (k : Kind) (p : ptr) (w w' : World)
    (r : Z * option error) :
  AddX k p w = Returned r w' -> call GetStatus (CallAddX k p) w = Returned tt w'.
Proof. intros Hadd. unfold call. run. by rewrite Hadd. Qed.

Lemma UpdateAccountByID_as_call GetStatus (id : string) (acct : ptr)
    (w w' : World) (r : option error) :
  UpdateAccountByID id acct w = Returned r w' ->
  call GetStatus (CallUpdateAccountByID id acct) w = Returned tt w'.
Proof. intros Hupd. unfold call. run. by rewrite Hupd. Qed.

Lemma GetOrderByID_as_call GetStatus (id : string) (w w' : World) (r : ptr) :
  GetOrderByID GetStatus id w = Returned r w' ->
  call GetStatus (CallGetXByID KOrder id) w = Returned tt w'.
Proof. intros Hget. unfold call. run. by rewrite Hget. Qed.

Lemma call_no_empty_key GetStatus (c : Call) (w w' : World) :
  no_empty_key w -> call GetStatus c w = Returned tt w' -> no_empty_key w'.
Proof.
  intros Hinv Hcall k. apply call_effect in Hcall.
  destruct c as [k0 p0|k0 id0|id0 acct|visit der|cert].
  - destruct Hcall as [[Hst _]|(a & i & _ & _ & Hne & _ & ->)];
      [by rewrite Hst|].
    simpl. rewrite lookup_set_byID. case_decide; [|done].
    by rewrite lookup_insert_ne.
  - by destruct Hcall as [->|(_ & a & o & s & _ & _ & ->)].
  - destruct Hcall as [->|([q Hq] & ->)]; [done|].
    change set_accountsByID with (set_byID KAccount). cbn [store with_store].
    rewrite lookup_set_byID. case_decide; [|done].
    rewrite lookup_insert_ne; [done|]. intros ->.
    specialize (Hinv KAccount). simpl in Hinv. congruence.
  - by subst.
  - destruct Hcall as (a & crt & _ & _ & ->).
    change set_certificatesByID with (set_byID KCertificate).
    cbn [store with_store]. rewrite lookup_set_byID. case_decide; [|done].
    apply lookup_delete_None. by right.
Qed.

(** X4.  In every world a program can be in, no collection has an entry
    under the empty ID: [AddX] refuses the empty ID and nothing else makes
    entries. *)
Theorem reachable_no_empty_key GetStatus (w : World) (k : Kind) :
  reachable GetStatus w -> byID k (store w) !! "" = None.
Proof.
  intros Hreach. revert k. change (no_empty_key w).
  induction Hreach as [h c|w h' _ IH Hgrow|w d _ IH|w k p r w' _ IH Hadd
                      |w id acct r w' _ IH Hacct Hupd|w id r w' _ IH Hget
                      |w cert w' _ IH Hrev].
  - intros k. by destruct k.
  - done.
  - intros k. specialize (IH k). by destruct k.
  - eapply (call_no_empty_key GetStatus); [exact IH|]. by eapply AddX_as_call.
  - eapply (call_no_empty_key GetStatus); [exact IH|].
    by eapply UpdateAccountByID_as_call.
  - eapply (call_no_empty_key GetStatus); [exact IH|].
    by eapply GetOrderByID_as_call.
  - by apply (call_no_empty_key GetStatus (CallRevokeCertificate cert) w).
Qed.

Lemma Sample_wA_reachable GetStatus : reachable GetStatus Sample.wA.
Proof.
  apply (reach_AddX GetStatus Sample.w0 KAccount (Ref 1) (1, None));
    [apply reach_new|reflexivity].
Defined.

Lemma Sample_wO_reachable GetStatus : reachable GetStatus Sample.wO.
Proof.
  apply (reach_AddX GetStatus Sample.w0 KOrder (Ref 1) (1, None));
    [apply reach_new|reflexivity].
Defined.

Lemma Sample_wC_reachable GetStatus : reachable GetStatus Sample.wC.
Proof.
  apply (reach_AddX GetStatus
           (with_store (set_certificatesByID <["c1" := Ref 1]>) Sample.w0)
           KCertificate (Ref 2) (2, None)); [|reflexivity].
  apply (reach_AddX GetStatus Sample.w0 KCertificate (Ref 1) (1, None));
    [apply reach_new|reflexivity].
Defined.

Lemma reachable_no_empty_key_witness :
  byID KAccount (store Sample.wA) !! "" = None.
Proof.
  exact (reachable_no_empty_key Sample.expiry_status Sample.wA KAccount
           (Sample_wA_reachable _)).
Defined.

Lemma wf_visit (w : World) (visit : list (string * ptr)) :
  wf w -> visit ≡ₚ map_to_list (certificatesByID (store w)) ->
  (∀ id p, (id, p) ∈ visit <-> certificatesByID (store w) !! id = Some p) ∧
  Forall (fun e => allocated (certificates (heap w)) e.2) visit.
Proof.
  intros Hwf Hperm.
  assert (Hin : ∀ id p, (id, p) ∈ visit <->
                        certificatesByID (store w) !! id = Some p).
  { intros id p. rewrite Hperm. apply elem_of_map_to_list. }
  split; [exact Hin|]. apply Forall_forall. intros [id p] Hp.
  apply Hin in Hp. exact (wf_certificates w Hwf id p Hp).
Qed.

Lemma call_panics_wf GetStatus (c : Call) (w : World) (v : PanicValue) :
  wf w -> valid_args c w -> call GetStatus c w = Panicked v ->
  ∃ id a s e, c = CallGetXByID KOrder id ∧
              ordersByID (store w) !! id = Some (Ref a) ∧
              GetStatus (heap w) a (clk (store w)) = (s, Some e) ∧
              v = PanicError e.
Proof.
  intros Hwf Hargs.
  destruct c as [k p|k id|id acct|visit der|cert]; unfold call; run;
    simpl in Hargs.
  - destruct Hargs as (a & -> & [i Hi]). rewrite AddX_steps.
    unfold add_steps. rewrite Hi. by repeat case_match.
  - destruct k; try done. simpl.
    destruct (ordersByID (store w) !! id) as [p|] eqn:Hid.
    + pose proof (wf_orders w Hwf id p Hid) as Hp.
      destruct p as [|a]; [done|]. destruct Hp as [o Ho].
      rewrite (GetOrderByID_stored _ _ _ _ o Hid Ho).
      destruct (GetStatus (heap w) a (clk (store w))) as [s [e|]] eqn:Hs;
        [|by case_decide]. intros [= <-]. by exists id, a, s, e.
    + by rewrite GetOrderByID_absent.
  - unfold UpdateAccountByID. run. by case_decide.
  - destruct (wf_visit w visit Hwf Hargs) as [_ Hall].
    destruct (scan_DER_finds w der visit Hall) as (r & Hscan & _).
    unfold GetCertificateByDER. by rewrite Hscan.
  - destruct cert as [|a]; [done|]. destruct Hargs as [crt Hc].
    by rewrite (RevokeCertificate_steps w a crt Hc).
Qed.

(** X5.  In every world a program can be in, a call with the arguments a
    program can give panics in one case only: [GetOrderByID] of a stored
    order for which the status computation returns an error, the panic
    carrying that error.  No call runs into a nil pointer. *)
Theorem reachable_call_panics_only_on_status_error GetStatus
    (c : Call) (w : World) (v : PanicValue) :
  reachable GetStatus w -> valid_args c w ->
  call GetStatus c w = Panicked v ->
  ∃ id a s e, c = CallGetXByID KOrder id ∧
              ordersByID (store w) !! id = Some (Ref a) ∧
              GetStatus (heap w) a (clk (store w)) = (s, Some e) ∧
              v = PanicError e.
Proof.
  intros Hreach. apply call_panics_wf. by eapply reachable_wf.
Qed.

Lemma reachable_call_panics_only_on_status_error_witness :
  ∃ id a s e,
    CallGetXByID KOrder "O" = CallGetXByID KOrder id ∧
    ordersByID (store Sample.wO) !! id = Some (Ref a) ∧
    Sample.failing_status (heap Sample.wO) a (clk (store Sample.wO))
      = (s, Some e) ∧
    PanicError (Errorf "order is in an invalid state" []) = PanicError e.
Proof.
  exact (reachable_call_panics_only_on_status_error Sample.failing_status
           (CallGetXByID KOrder "O") Sample.wO _
           (Sample_wO_reachable _) I eq_refl).
Defined.

(** X6.  In every world a program can be in, a read by ID of an order, an
    authorization, a challenge or a certificate returns nil exactly when
    the collection has no entry under the ID: these collections never hold
    nil. *)
Theorem reachable_nil_means_absent GetStatus (w : World) (k : Kind) (id : string) :
  reachable GetStatus w -> k ≠ KAccount ->
  (∃ w', GetXByID GetStatus k id w = Returned Nil w') <->
  byID k (store w) !! id = None.
Proof.
  intros Hreach Hk. apply reachable_wf in Hreach as Hwf.
  assert (Hnonnil : byID k (store w) !! id ≠ Some Nil).
  { intros Hnil. destruct Hwf. destruct k; try done; simpl in Hnil.
    - by apply (wf_orders0 id Nil).
    - by apply (wf_authorizations0 id Nil).
    - by apply (wf_challenges0 id Nil).
    - by apply (wf_certificates0 id Nil). }
  destruct k; try done; simpl in *;
    try (unfold GetAuthorizationByID, GetChallengeByID, GetCertificateByID,
           gets; split;
         [intros (w' & [= Hidx _]); apply index_Nil in Hidx as [?|?]; done
         |intros Hnone; exists w; f_equal; apply index_Nil; by left]).
  split.
  - intros (w' & Hget).
    destruct (ordersByID (store w) !! id) as [[|a]|] eqn:Hid; try done.
    destruct (wf_orders w Hwf id (Ref a) Hid) as [o Ho].
    rewrite (GetOrderByID_stored _ _ _ _ o Hid Ho) in Hget.
    destruct (GetStatus _ _ _) as [s [e|]]; [done|]. by case_decide.
  - intros Hnone. exists w. by apply GetOrderByID_absent.
Qed.

Lemma reachable_nil_means_absent_witness :
  (∃ w', GetXByID Sample.expiry_status KCertificate "c3" Sample.wC
           = Returned Nil w') ∧
  byID KCertificate (store Sample.wC) !! "c3" = None.
Proof.
  split; [|reflexivity].
  apply (reachable_nil_means_absent Sample.expiry_status Sample.wC
           KCertificate "c3" (Sample_wC_reachable _)); [discriminate|].
  reflexivity.
Defined.

(** ** More on accounts *)

(** X7.  [UpdateAccountByID id nil] on a stored account returns no error
    and leaves nil under [id].  From then on [GetAccountByID id] returns
    nil, [UpdateAccountByID id] fails for every argument with the error
    for an account that does not exist, and [AddAccount] of an account
    with this ID fails with the error for an ID that exists: the ID can
    be neither updated nor added again. *)
Theorem UpdateAccountByID_nil_blocks_ID (w : World) (id : string) (a : addr) :
  id ≠ "" ->
  accountsByID (store w) !! id = Some (Ref a) ->
  ∃ w1,
    UpdateAccountByID id Nil w = Returned None w1 ∧
    GetAccountByID id w1 = Returned Nil w1 ∧
    (∀ acct, UpdateAccountByID id acct w1 = Returned (Some (NotFound id)) w1) ∧
    (∀ b acct, accounts (heap w1) !! b = Some acct ->
               Account_ID acct = id -> Account_Key acct ≠ Nil ->
               AddAccount (Ref b) w1
                 = Returned (0, Some (AlreadyExists KAccount id)) w1).
Proof.
  intros Hne Ha.
  exists (with_store (set_accountsByID <[id := Nil]>) w).
  assert (Hnil : accountsByID
                   (store (with_store (set_accountsByID <[id := Nil]>) w)) !! id
                 = Some Nil) by apply lookup_insert_eq.
  split; [|split; [|split]].
  - unfold UpdateAccountByID. run.
    rewrite decide_False; [done|]. apply index_Ref in Ha. by rewrite Ha.
  - unfold GetAccountByID, gets. f_equal. apply index_Nil. by right.
  - intros acct. unfold UpdateAccountByID. run.
    rewrite decide_True; [done|]. apply index_Nil. by right.
  - intros b acct Hb Hid Hkey. simpl in Hb.
    change AddAccount with (AddX KAccount).
    rewrite (AddX_present KAccount _ b id Nil); try done.
    + unfold key_is_nil. simpl. rewrite Hb.
      by rewrite bool_decide_eq_false_2.
    + simpl. rewrite Hb. simpl. by rewrite Hid.
Qed.

Lemma UpdateAccountByID_nil_blocks_ID_witness :
  ∃ w1,
    UpdateAccountByID "acct1" Nil Sample.wA = Returned None w1 ∧
    GetAccountByID "acct1" w1 = Returned Nil w1 ∧
    UpdateAccountByID "acct1" (Ref 1) w1
      = Returned (Some (NotFound "acct1")) w1 ∧
    AddAccount (Ref 1) w1
      = Returned (0, Some (AlreadyExists KAccount "acct1")) w1.
Proof.
  destruct (UpdateAccountByID_nil_blocks_ID Sample.wA "acct1" 1
              ltac:(discriminate) eq_refl)
    as (w1 & Hupd & Hget & Hagain & Hadd).
  exists w1. split; [exact Hupd|]. split; [exact Hget|].
  split; [apply Hagain|].
  assert (Hheap : heap w1 = Sample.heap0).
  { unfold UpdateAccountByID in Hupd. vm_compute in Hupd.
    by injection Hupd as <-. }
  apply (Hadd 1%positive (mkAccount "acct1" (Ref 9) [])).
  - by rewrite Hheap.
  - reflexivity.
  - discriminate.
Defined.

(** X8.  [UpdateAccountByID] never changes which IDs have an account:
    whatever it returns, the accounts have the IDs they had and as many
    entries, and the other collections, the clock and the entities are
    untouched.  It takes its argument as it is: the ID and the key of the
    new account are not looked at. *)
Theorem UpdateAccountByID_keeps_IDs (w w' : World) (id : string) (acct : ptr)
    (r : option error) :
  UpdateAccountByID id acct w = Returned r w' ->
  dom (accountsByID (store w')) = dom (accountsByID (store w)) ∧
  size (accountsByID (store w')) = size (accountsByID (store w)) ∧
  (∀ k, k ≠ KAccount -> byID k (store w') = byID k (store w)) ∧
  clk (store w') = clk (store w) ∧ heap w' = heap w.
Proof.
  unfold UpdateAccountByID. run. case_decide as Hidx; intros [= _ <-].
  - repeat split; done.
  - assert (Hin : is_Some (accountsByID (store w) !! id)).
    { unfold index in Hidx. by destruct (accountsByID (store w) !! id). }
    assert (Hdom : dom (<[id := acct]> (accountsByID (store w)))
                   = dom (accountsByID (store w))).
    { by apply dom_insert_lookup_L. }
    simpl. split; [exact Hdom|]. split.
    + by rewrite <- !size_dom, Hdom.
    + split; [|done]. intros k Hk. by destruct k.
Qed.

Lemma UpdateAccountByID_keeps_IDs_witness :
  ∃ w', UpdateAccountByID "acct1" (Ref 4) Sample.wA = Returned None w' ∧
        dom (accountsByID (store w')) = dom (accountsByID (store Sample.wA)) ∧
        size (accountsByID (store w')) = 1%nat ∧
        GetAccountByID "acct1" w' = Returned (Ref 4) w'.
Proof.
  exists (with_store (set_accountsByID <["acct1" := Ref 4]>) Sample.wA).
  destruct (UpdateAccountByID_keeps_IDs Sample.wA
              (with_store (set_accountsByID <["acct1" := Ref 4]>) Sample.wA)
              "acct1" (Ref 4) None eq_refl) as (Hdom & Hsize & _).
  split; [reflexivity|]. split; [exact Hdom|]. split; [exact Hsize|].
  reflexivity.
Defined.

(** ** More on certificates *)

(** X9.  Revoking a stored certificate and adding it again gives back the
    world before the revocation, and the count returned is the size the
    collection had. *)
Theorem RevokeCertificate_then_AddCertificate (w : World) (a : addr)
    (c : Certificate) :
  certificates (heap w) !! a = Some c ->
  Certificate_ID c ≠ "" ->
  certificatesByID (store w) !! Certificate_ID c = Some (Ref a) ->
  (_ ← RevokeCertificate (Ref a); AddCertificate (Ref a)) w
  = Returned (Z.of_nat (size (certificatesByID (store w))), None) w.
Proof.
  intros Hc Hne Hstored. run.
  rewrite (RevokeCertificate_steps w a c Hc).
  change AddCertificate with (AddX KCertificate).
  rewrite (AddX_fresh KCertificate _ a (Certificate_ID c)); try done.
  - simpl. f_equal.
    + f_equal. rewrite map_size_delete, Hstored.
      assert (size (certificatesByID (store w)) ≠ 0%nat).
      { intros Hz. apply map_size_empty_inv in Hz. by rewrite Hz in Hstored. }
      lia.
    + destruct w as [h m], m. unfold with_store, set_certificatesByID. simpl.
      simpl in Hstored. by rewrite insert_delete_id.
  - simpl. by rewrite Hc.
  - simpl. apply lookup_delete_eq.
Qed.

Lemma RevokeCertificate_then_AddCertificate_witness :
  (_ ← RevokeCertificate (Ref 2); AddCertificate (Ref 2)) Sample.wC
  = Returned (2, None) Sample.wC.
Proof.
  exact (RevokeCertificate_then_AddCertificate Sample.wC 2 _ eq_refl
           ltac:(discriminate) eq_refl).
Defined.

(** X10.  Adding a certificate and revoking it gives back the world before
    the addition. *)
Theorem AddCertificate_then_RevokeCertificate (w w1 : World) (cert : ptr) (n : Z) :
  AddCertificate cert w = Returned (n, None) w1 ->
  RevokeCertificate cert w1 = Returned tt w.
Proof.
  intros Hadd. change AddCertificate with (AddX KCertificate) in Hadd.
  destruct (AddX_success _ _ _ _ _ Hadd)
    as (a & i & -> & Hi & _ & _ & Hfresh & ->).
  simpl in Hi. apply fmap_Some in Hi as (c & Hc & ->).
  rewrite (RevokeCertificate_steps _ a c) by done. f_equal.
  destruct w as [h m], m. unfold with_store, set_certificatesByID, set_byID.
  simpl in *. by rewrite delete_insert_id.
Qed.

Lemma AddCertificate_then_RevokeCertificate_witness :
  RevokeCertificate (Ref 1)
    (with_store (set_certificatesByID <["c1" := Ref 1]>) Sample.w0)
  = Returned tt Sample.w0.
Proof.
  exact (AddCertificate_then_RevokeCertificate Sample.w0 _ (Ref 1) 1 eq_refl).
Defined.

(** X11.  A certificate that has just been added is found by its own DER:
    in a well-formed world, after [AddCertificate] has stored a
    certificate, [GetCertificateByDER] with the DER of that certificate
    returns a stored certificate with exactly that DER (that one, or
    another with the same DER), whatever the order of the visit and also
    when the DER is nil or empty. *)
Theorem AddCertificate_then_GetCertificateByDER
    (w w1 : World) (a : addr) (c : Certificate) (n : Z)
    (visit : list (string * ptr)) :
  wf w ->
  certificates (heap w) !! a = Some c ->
  AddCertificate (Ref a) w = Returned (n, None) w1 ->
  visit ≡ₚ map_to_list (certificatesByID (store w1)) ->
  ∃ b c', GetCertificateByDER visit (Certificate_DER c) w1
            = Returned (Ref b) w1 ∧
          stored_certificate w1 b c' ∧
          Certificate_DER c' = Certificate_DER c.
Proof.
  intros Hwf Hc Hadd Hperm.
  assert (Hwf1 : wf w1) by exact (AddX_wf KCertificate _ _ _ _ Hwf Hadd).
  change AddCertificate with (AddX KCertificate) in Hadd.
  destruct (AddX_success _ _ _ _ _ Hadd)
    as (a' & i & [= <-] & Hi & _ & _ & _ & Hw1).
  destruct (wf_visit w1 visit Hwf1 Hperm) as [Hin Hall].
  destruct (scan_DER_finds w1 (Certificate_DER c) visit Hall)
    as (r & Hscan & Hr).
  assert (Hheap : heap w1 = heap w) by by rewrite Hw1.
  destruct r as [|b].
  - assert (Hmem : (i, Ref a) ∈ visit).
    { apply Hin. rewrite Hw1. simpl. apply lookup_insert_eq. }
    specialize (Hr i a c Hmem). rewrite Hheap in Hr. specialize (Hr Hc).
    assert (DeepEqual (Certificate_DER c) (Certificate_DER c) = true)
      by by apply DeepEqual_true.
    congruence.
  - destruct Hr as (id & c' & Hmem & Hc' & Heq). exists b, c'.
    split; [exact Hscan|]. split.
    + exists id. split; [by apply Hin|done].
    + by apply DeepEqual_true.
Qed.

Lemma AddCertificate_then_GetCertificateByDER_witness :
  ∃ b c', GetCertificateByDER [("c1", Ref 1)] (Slice [])
            (with_store (set_certificatesByID <["c1" := Ref 1]>) Sample.w0)
          = Returned (Ref b)
              (with_store (set_certificatesByID <["c1" := Ref 1]>) Sample.w0) ∧
          stored_certificate
            (with_store (set_certificatesByID <["c1" := Ref 1]>) Sample.w0)
            b c' ∧
          Certificate_DER c' = Slice [].
Proof.
  apply (AddCertificate_then_GetCertificateByDER Sample.w0 _ 1
           (mkCertificate "c1" (Slice [])) 1 [("c1", Ref 1)]).
  - apply NewMemoryStore_wf.
  - reflexivity.
  - reflexivity.
  - by vm_compute.
Defined.

(** X12.  [GetCertificateByDER] returns at the first certificate of the
    visit whose DER is deeply equal to the query: the certificates visited
    before do not match, and the entries after it are not looked at. *)
Theorem GetCertificateByDER_first_match
    (w : World) (der : ByteSlice) (before after : list (string * ptr))
    (id : string) (a : addr) (c : Certificate) :
  Forall (fun e => ∃ b cb, e.2 = Ref b ∧
                           certificates (heap w) !! b = Some cb ∧
                           DeepEqual (Certificate_DER cb) der = false) before ->
  certificates (heap w) !! a = Some c ->
  DeepEqual (Certificate_DER c) der = true ->
  GetCertificateByDER (before ++ (id, Ref a) :: after) der w
  = Returned (Ref a) w.
Proof.
  intros Hbefore Hc Heq. unfold GetCertificateByDER.
  induction Hbefore as [|[id' p] rest (b & cb & Hp & Hcb & Hne) _ IH]; simpl.
  - run. by rewrite Hc, Heq.
  - simpl in Hp. subst p. run. rewrite Hcb, Hne. exact IH.
Qed.

Lemma GetCertificateByDER_first_match_witness :
  GetCertificateByDER ([("c1", Ref 1)] ++ ("c2", Ref 2) :: [("gone", Nil)])
    (Slice [x30; x82; x01]) Sample.wC
  = Returned (Ref 2) Sample.wC.
Proof.
  apply (GetCertificateByDER_first_match Sample.wC (Slice [x30; x82; x01])
           [("c1", Ref 1)] [("gone", Nil)] "c2" 2
           (mkCertificate "c2" (Slice [x30; x82; x01]))).
  - apply list.Forall_cons. split; [|apply list.Forall_nil; exact I].
    exists 1%positive, (mkCertificate "c1" (Slice [])). by repeat split.
  - reflexivity.
  - reflexivity.
Defined.

(** X13.  After [RevokeCertificate], in a well-formed world,
    [GetCertificateByDER] returns only certificates stored under another
    ID than the revoked one: a matching certificate that is still stored
    under another ID, or nil when there is none. *)
Theorem RevokeCertificate_then_GetCertificateByDER
    (w w1 : World) (a : addr) (c : Certificate) (der : ByteSlice)
    (visit : list (string * ptr)) :
  wf w ->
  certificates (heap w) !! a = Some c ->
  RevokeCertificate (Ref a) w = Returned tt w1 ->
  visit ≡ₚ map_to_list (certificatesByID (store w1)) ->
  ∃ r, GetCertificateByDER visit der w1 = Returned r w1 ∧
       (∀ b, r = Ref b ->
             ∃ id cb, id ≠ Certificate_ID c ∧
                      certificatesByID (store w) !! id = Some (Ref b) ∧
                      certificates (heap w) !! b = Some cb ∧
                      DeepEqual (Certificate_DER cb) der = true) ∧
       ((∀ id b cb, id ≠ Certificate_ID c ->
                    certificatesByID (store w) !! id = Some (Ref b) ->
                    certificates (heap w) !! b = Some cb ->
                    DeepEqual (Certificate_DER cb) der = false) ->
        r = Nil).
Proof.
  intros Hwf Hc Hrev Hperm.
  assert (Hwf1 : wf w1) by exact (RevokeCertificate_wf _ _ _ Hwf Hrev).
  rewrite (RevokeCertificate_steps w a c Hc) in Hrev.
  injection Hrev as <-.
  destruct (wf_visit _ visit Hwf1 Hperm) as [Hin Hall].
  destruct (scan_DER_finds _ der visit Hall) as (r & Hscan & Hr).
  exists r. split; [exact Hscan|].
  assert (Hfound : ∀ b, r = Ref b ->
            ∃ id cb, id ≠ Certificate_ID c ∧
                     certificatesByID (store w) !! id = Some (Ref b) ∧
                     certificates (heap w) !! b = Some cb ∧
                     DeepEqual (Certificate_DER cb) der = true).
  { intros b ->. destruct Hr as (id & cb & Hmem & Hcb & Heq).
    apply Hin in Hmem. simpl in Hmem.
    apply lookup_delete_Some in Hmem as [Hne Hid].
    exists id, cb. by repeat split. }
  split; [exact Hfound|].
  intros Hnone. destruct r as [|b]; [done|].
  destruct (Hfound b eq_refl) as (id & cb & Hne & Hid & Hcb & Heq).
  specialize (Hnone id b cb Hne Hid Hcb). congruence.
Qed.

Lemma RevokeCertificate_then_GetCertificateByDER_witness :
  ∃ r, GetCertificateByDER [("c1", Ref 1)] (Slice [x30; x82; x01])
         (with_store (set_certificatesByID (delete "c2")) Sample.wC)
       = Returned r (with_store (set_certificatesByID (delete "c2")) Sample.wC) ∧
       r = Nil.
Proof.
  destruct (RevokeCertificate_then_GetCertificateByDER Sample.wC
              (with_store (set_certificatesByID (delete "c2")) Sample.wC)
              2 (mkCertificate "c2" (Slice [x30; x82; x01]))
              (Slice [x30; x82; x01]) [("c1", Ref 1)]
              Sample_wC_wf eq_refl eq_refl)
    as (r & Hget & _ & Hnil).
  { by vm_compute. }
  exists r. split; [exact Hget|]. apply Hnil.
  intros id b cb Hne Hid Hcb.
  change (certificatesByID (store Sample.wC))
    with (<["c1" := Ref 1]> (<["c2" := Ref 2]> (∅ : gmap string ptr))) in Hid.
  apply lookup_insert_Some in Hid as [[<- [= <-]]|[_ Hid]].
  - by injection Hcb as <-.
  - apply lookup_insert_Some in Hid as [[<- _]|[_ Hid]]; [done|].
    by rewrite lookup_empty in Hid.
Defined.

(** ** The collections side by side *)

Lemma set_byID_comm (k k' : Kind) f g (m : MemoryStore) :
  k ≠ k' -> set_byID k f (set_byID k' g m) = set_byID k' g (set_byID k f m).
Proof. by destruct k, k'. Qed.

(** What [AddX] for one kind does to the world passes [AddX] for another
    kind. *)
Lemma AddX_world (k k' : Kind) (p : ptr) (w w1 : World) (r : Z * option error) :
  k ≠ k' -> AddX k p w = Returned r w1 ->
  ∃ T, w1 = T w ∧ passes k' T ∧
       (T = (fun w => w) ∨ (∃ a, T = kept_RLock k a) ∨
        ∃ f, T = with_store (set_byID k f)).
Proof.
  intros Hk Hadd.
  destruct (AddX_cases _ _ _ _ _ Hadd)
    as [[_ [->|[a ->]]]|(a & i & _ & _ & _ & _ & _ & _ & ->)].
  - exists (fun w => w). split; [done|]. split; [by repeat split|by left].
  - exists (kept_RLock k a). split; [done|]. split; [|right; left; by exists a].
    destruct k, k'; try done; by repeat split.
  - exists (with_store (set_byID k <[i := p]>)). split; [done|].
    split; [|right; right; by eexists].
    repeat split; try done.
    + intros w0. simpl. by rewrite byID_set_byID_ne.
    + intros w0 b. by destruct k'.
    + intros w0 f. unfold with_store. simpl. by rewrite set_byID_comm.
Qed.

Lemma AddX_panics (k : Kind) (p : ptr) (w : World) (v : PanicValue) :
  AddX k p w = Panicked v -> v = NilDereference.
Proof.
  rewrite AddX_steps. unfold add_steps.
  repeat case_match; try done; by intros [= <-].
Qed.

Lemma AddX_never_blocks (k : Kind) (p : ptr) (w : World) :
  AddX k p w ≠ Blocked.
Proof. rewrite AddX_steps. unfold add_steps. by repeat case_match. Qed.

(** [AddX] for one kind does not see what passes it. *)
Lemma AddX_other (k : Kind) (T : World -> World) (p : ptr) (w : World) :
  passes k T ->
  AddX k p (T w) =
  match AddX k p w with
  | Returned r w2 => Returned r (T w2)
  | Panicked v => Panicked v
  | Blocked => Blocked
  end.
Proof.
  intros (HID & Hkey & Hby & Hkept & Hset). rewrite !AddX_steps.
  unfold add_steps. destruct p as [|a]; [done|].
  rewrite HID, Hkey, Hby.
  destruct (ID_at k (heap w) a) as [i|]; [|done].
  repeat case_match; try done; by rewrite ?Hkept, ?Hset.
Qed.

(** X14.  Additions to two different collections commute: in either order
    the two calls return the same counts and errors and leave the same
    world, or both orders panic alike.  The same ID may be used in two
    collections. *)
Theorem AddX_commute (k k' : Kind) (p p' : ptr) (w : World) :
  k ≠ k' ->
  (r ← AddX k p; r' ← AddX k' p'; mret (r, r')) w =
  (r' ← AddX k' p'; r ← AddX k p; mret (r, r')) w.
Proof.
  intros Hk. run.
  destruct (AddX k p w) as [r w1|v|] eqn:Hadd;
    destruct (AddX k' p' w) as [r' w1'|v'|] eqn:Hadd';
    try (by apply AddX_never_blocks in Hadd);
    try (by apply AddX_never_blocks in Hadd').
  - destruct (AddX_world k k' _ _ _ _ Hk Hadd) as (T & -> & HT & _).
    destruct (AddX_world k' k _ _ _ _ (not_eq_sym Hk) Hadd')
      as (T' & -> & HT' & Hform).
    rewrite (AddX_other k' T) by done. rewrite (AddX_other k T') by done.
    rewrite Hadd, Hadd'. f_equal.
    destruct HT as (_ & _ & _ & Hkept & Hset).
    destruct Hform as [->|[[a ->]|[f ->]]]; by rewrite ?Hkept, ?Hset.
  - destruct (AddX_world k k' _ _ _ _ Hk Hadd) as (T & -> & HT & _).
    rewrite (AddX_other k' T) by done. by rewrite Hadd'.
  - destruct (AddX_world k' k _ _ _ _ (not_eq_sym Hk) Hadd')
      as (T' & -> & HT' & _).
    rewrite (AddX_other k T') by done. by rewrite Hadd.
  - apply AddX_panics in Hadd, Hadd'. by subst.
Qed.

Lemma AddX_commute_witness :
  (r ← AddX KOrder (Ref 1); r' ← AddX KAccount (Ref 1); mret (r, r')) Sample.w0
  = (r' ← AddX KAccount (Ref 1); r ← AddX KOrder (Ref 1); mret (r, r')) Sample.w0.
Proof.
  apply (AddX_commute KOrder KAccount (Ref 1) (Ref 1) Sample.w0). discriminate.
Defined.

(** ** A new store, and nil *)

(** X15.  In a store just made by [NewMemoryStore] every read by ID
    returns nil, [UpdateAccountByID] fails with the error for an account
    that does not exist, [GetCertificateByDER] returns nil, all without a
    change, and the first [AddX] of an entity with a non-empty ID (and a
    key, for an account) returns the count 1. *)
Theorem NewMemoryStore_is_empty GetStatus (h : Heap) (c : Clock)
    (k : Kind) (id : string) :
  let w := mkWorld h (NewMemoryStore c) in
  GetXByID GetStatus k id w = Returned Nil w ∧
  (∀ acct, UpdateAccountByID id acct w = Returned (Some (NotFound id)) w) ∧
  (∀ visit der, visit ≡ₚ map_to_list (certificatesByID (store w)) ->
                GetCertificateByDER visit der w = Returned Nil w) ∧
  (∀ a, ID_at k h a = Some id -> id ≠ "" -> key_is_nil k h a = false ->
        ∃ w', AddX k (Ref a) w = Returned (1, None) w' ∧
              byID k (store w') = {[id := Ref a]}).
Proof.
  intros w. split; [|split; [|split]].
  - by destruct k.
  - done.
  - intros visit der Hperm. simpl in Hperm.
    rewrite map_to_list_empty in Hperm.
    by apply Permutation_nil_r in Hperm as ->.
  - intros a Hi Hne Hkey.
    exists (with_store (set_byID k <[id := Ref a]>) w). split.
    + rewrite (AddX_fresh k w a id Hi Hne Hkey); by destruct k.
    + simpl. rewrite byID_set_byID. by destruct k.
Qed.

Lemma NewMemoryStore_is_empty_witness :
  GetXByID Sample.failing_status KOrder "O" Sample.w0
    = Returned Nil Sample.w0 ∧
  ∃ w', AddX KOrder (Ref 1) Sample.w0 = Returned (1, None) w' ∧
        byID KOrder (store w') = {["O" := Ref 1]}.
Proof.
  destruct (NewMemoryStore_is_empty Sample.failing_status Sample.heap0
              (mkClock 0) KOrder "O") as (Hget & _ & _ & Hadd).
  split; [exact Hget|].
  exact (Hadd 1%positive eq_refl ltac:(discriminate) eq_refl).
Defined.

(** X16.  [AddX] and [RevokeCertificate] read through the pointer they
    are given before anything else: given nil they panic on the nil
    pointer, whatever the store holds.  [AddX] panics in no other case:
    given an entity it returns. *)
Theorem AddX_panics_iff_nil (k : Kind) (w : World) :
  AddX k Nil w = Panicked NilDereference ∧
  RevokeCertificate Nil w = Panicked NilDereference ∧
  (∀ a, is_Some (ID_at k (heap w) a) ->
        ∃ r w', AddX k (Ref a) w = Returned r w').
Proof.
  split; [by destruct k|]. split; [done|].
  intros a [i Hi]. rewrite AddX_steps. unfold add_steps. rewrite Hi.
  repeat case_match; eauto.
Qed.

Lemma AddX_panics_iff_nil_witness :
  AddX KChallenge Nil Sample.w0 = Panicked NilDereference ∧
  ∃ r w', AddX KChallenge (Ref 2) Sample.w0 = Returned r w'.
Proof.
  destruct (AddX_panics_iff_nil KChallenge Sample.w0) as (Hnil & _ & Hret).
  split; [exact Hnil|]. apply Hret. by eexists.
Defined.
